(** * PlotSys lexer: a shallow embedding of [tokenize] (parser/lexer.cpp)

    The lexer walks an expression once, left to right, and emits tokens
    (Token.hpp).  The index [i] of the C++ loop is modelled by the suffix of
    the expression that starts at [i]: the code never reads a character at an
    index below [i].  Characters are bytes ([ascii]).  [std::isspace],
    [std::isdigit] and [std::isalpha] are those of the "C" locale, the one
    the program runs in (it never calls [setlocale]); they answer false on
    the bytes above 127.  An exception is a value of the error type. *)

From Stdlib Require Import Ascii String.
From Stdlib Require Import List Bool Arith Lia QArith_base.
Import ListNotations.

Local Open Scope char_scope.
Local Open Scope list_scope.
Local Open Scope bool_scope.
Local Open Scope nat_scope.

(* Sizes are those of byte sequences. *)
Abbreviation length := Datatypes.length.

(** [operator==] on [char]. *)
Infix "==" := Ascii.eqb (at level 70, no associativity).

(** A [std::string] is a sequence of bytes. *)
Definition text := list ascii.

(** String literals of the development, as [std::string] values. *)
Definition str (s : string) : text := list_ascii_of_string s.

Definition text_eq_dec : forall a b : text, {a = b} + {a <> b} :=
  list_eq_dec ascii_dec.

(** ** <cctype>, "C" locale *)

Definition isspace (c : ascii) : bool :=
  let n := nat_of_ascii c in (n =? 32) || ((9 <=? n) && (n <=? 13)).

Definition isdigit (c : ascii) : bool :=
  let n := nat_of_ascii c in (48 <=? n) && (n <=? 57).

Definition isalpha (c : ascii) : bool :=
  let n := nat_of_ascii c in
  ((65 <=? n) && (n <=? 90)) || ((97 <=? n) && (n <=? 122)).

(** ** Token.hpp *)

Module tokenType.
Inductive t : Set :=
  Number | Operator | LeftParen | RightParen | Function | Constant | Variable_ | Invalid.
(* [Variable_] is tokenType::Variable: the bare word is reserved. *)
End tokenType.

Record token : Set := mkToken { type : tokenType.t; value : text }.

(** ** The failure channel

    [tokenize] throws [std::runtime_error] at five places of the numeric
    scanner (lines 84, 93, 102, 112 and 117), with four messages: the last
    two places share one.  The exception is modelled by its message. *)

Inductive LexicalError : Set :=
| MultipleDecimalPoints   (* "Numero mal formado con multiples puntos decimales." *)
| MultipleExponents       (* "Numero mal formado con multiples exponentes." *)
| IncompleteExponent      (* "Exponente invalido o incompleto." *)
| ExponentWithoutDigit.   (* "Exponente debe ir seguido de un digito." *)

Inductive result (A : Type) : Type :=
| Ok (a : A)
| Err (e : LexicalError).
Arguments Ok {A} a.
Arguments Err {A} e.

Definition bind {A B : Type} (r : result A) (k : A -> result B) : result B :=
  match r with
  | Ok a => k a
  | Err e => Err e
  end.

Notation "x <- r ;; k" := (bind r (fun x => k))
  (at level 61, r at next level, right associativity).
Notation "' p <- r ;; k" := (bind r (fun x => let p := x in k))
  (at level 61, p pattern, r at next level, right associativity).

(** ** The vocabulary tables of [tokenize] *)

Definition functions : list text :=
  map str ["sin"; "cos"; "tan"; "sec"; "csc"; "cot"; "asin"; "acos"; "atan";
           "asec"; "acsc"; "acot"; "log"; "ln"; "log_base"; "sqrt"; "abs";
           "nroot"; "^"]%string.

Definition functionsArity : list (text * Q) :=
  map (fun p => (str (fst p), inject_Z (snd p)))
    [("sin", 1); ("cos", 1); ("tan", 1); ("sec", 1); ("csc", 1); ("cot", 1);
     ("asin", 1); ("acos", 1); ("atan", 1); ("asec", 1); ("acsc", 1);
     ("acot", 1); ("log", 1); ("ln", 1); ("log_base", 2); ("sqrt", 1);
     ("abs", 1); ("nroot", 2); ("^", 2)]%string%Z.

Definition constant : list (text * Q) :=
  [(str "pi", (3141592653589793 # 1000000000000000)%Q);
   (str "e", (2718281828459045 # 1000000000000000)%Q)].

Definition variables : list text := map str ["x"; "y"; "z"]%string.

(** [std::unordered_set::count] and [std::unordered_map::count], as tests. *)
Definition count (table : list text) (key : text) : bool :=
  if in_dec text_eq_dec key table then true else false.

Definition count_key {V : Type} (table : list (text * V)) (key : text) : bool :=
  count (map fst table) key.

(** ** The numeric scanner (lexer.cpp, lines 65-137) *)

(** Lines 121-124: the digits of the exponent. *)
Fixpoint exponent_digits (current expression : text) : text * text :=
  match expression with
  | c :: rest =>
      if isdigit c then exponent_digits (current ++ [c]) rest
      else (current, expression)
  | [] => (current, [])
  end.

(** Lines 98-126: what follows the exponent marker, which [current] already
    ends with.  The [break] of line 126 is the return. *)
Definition exponent (current expression : text) : result (text * text) :=
  match expression with
  | [] => Err IncompleteExponent
  | signOrDigit :: rest =>
      if (signOrDigit == "+") || (signOrDigit == "-") then
        match rest with
        | d :: _ =>
            if isdigit d
            then Ok (exponent_digits (current ++ [signOrDigit]) rest)
            else Err ExponentWithoutDigit
        | [] => Err ExponentWithoutDigit
        end
      else if negb (isdigit signOrDigit) then Err ExponentWithoutDigit
      else Ok (exponent_digits current expression)
  end.

(** Lines 71-134: the [while] loop, with its two flags.  It returns the
    literal and the characters it has not consumed. *)
Fixpoint number (seenDot seenExp : bool) (current expression : text)
  : result (text * text) :=
  match expression with
  | [] => Ok (current, [])
  | next :: rest =>
      if isdigit next then number seenDot seenExp (current ++ [next]) rest
      else if next == "." then
        if seenDot || seenExp then Err MultipleDecimalPoints
        else number true seenExp (current ++ [next]) rest
      else if (next == "e") || (next == "E") then
        if seenExp then Err MultipleExponents
        else exponent (current ++ [next]) rest
      else Ok (current, expression)
  end.

(** Lines 65-134: the scanner at the first character of a literal. *)
Definition numeric (character : ascii) (rest : text) : result (text * text) :=
  number (character == ".") false [character] rest.

(** Line 63: the test that enters the numeric scanner. *)
Definition starts_number (expression : text) : bool :=
  match expression with
  | character :: rest =>
      isdigit character
      || ((character == ".")
          && match rest with d :: _ => isdigit d | [] => false end)
  | [] => false
  end.

(** ** The identifier scanner (lines 143-163) *)

Fixpoint letters (current expression : text) : text * text :=
  match expression with
  | c :: rest =>
      if isalpha c then letters (current ++ [c]) rest
      else (current, expression)
  | [] => (current, [])
  end.

Definition identifier (current : text) : token :=
  if count functions current then mkToken tokenType.Function current
  else if count_key constant current then mkToken tokenType.Constant current
  else if count variables current && (length current =? 1)
       then mkToken tokenType.Variable_ current
  else mkToken tokenType.Invalid current.

(** ** The main loop (lines 53-182) *)

Definition is_operator (character : ascii) : bool :=
  if in_dec ascii_dec character (str "+-*/^%=") then true else false.

(** One pass through the body of the [for] loop, at a character and the
    characters after it.  The result is the token vector and the unread rest
    of the expression once [i++] has run. *)
Definition body (tokens : list token) (character : ascii) (rest : text)
  : result (list token * text) :=
  if isspace character then Ok (tokens, rest)
  else if starts_number (character :: rest) then
    '(current, rest') <- numeric character rest ;;
    Ok (tokens ++ [mkToken tokenType.Number current], rest')
  else if isalpha character then
    let '(current, rest') := letters [character] rest in
    Ok (tokens ++ [identifier current], rest')
  else if character == "(" then
    Ok (tokens ++ [mkToken tokenType.LeftParen (str "(")], rest)
  else if character == ")" then
    Ok (tokens ++ [mkToken tokenType.RightParen (str ")")], rest)
  else if is_operator character then
    Ok (tokens ++ [mkToken tokenType.Operator [character]], rest)
  else
    Ok (tokens ++ [mkToken tokenType.Invalid [character]], rest).

(** The [for] loop.  Every pass consumes at least one character, so the
    length of the expression bounds the number of passes: the bound is never
    exhausted before the expression is (lemmas [loop_bound] and
    [tokenize_from_Ok]). *)
Fixpoint loop (passes : nat) (tokens : list token) (expression : text)
  : result (list token) :=
  match expression with
  | [] => Ok tokens
  | character :: rest =>
      match passes with
      | 0 => Ok tokens
      | S passes' =>
          '(tokens', rest') <- body tokens character rest ;;
          loop passes' tokens' rest'
      end
  end.

Definition tokenize (expression : text) : result (list token) :=
  loop (length expression) [] expression.

(** The loop at the top of its body, with the token vector built so far. *)
Definition tokenize_from (tokens : list token) (expression : text)
  : result (list token) :=
  loop (length expression) tokens expression.

(** [scans tokens e tokens' e']: from the top of the body with vector
    [tokens] and unread [e], some passes later the loop is at the top of the
    body with vector [tokens'] and unread [e']. *)
Inductive scans : list token -> text -> list token -> text -> Prop :=
| scans_here tokens e : scans tokens e tokens e
| scans_pass tokens character rest tokens1 rest1 tokens2 rest2 :
    body tokens character rest = Ok (tokens1, rest1) ->
    scans tokens1 rest1 tokens2 rest2 ->
    scans tokens (character :: rest) tokens2 rest2.

(** [tokenize expression] arrives at the top of the body with [tokens]
    emitted and [rest] unread. *)
Definition reaches (expression : text) (tokens : list token) (rest : text)
  : Prop :=
  scans [] expression tokens rest.

(** ** Shapes of literals, in the words of the specification *)

Definition is_dot (c : ascii) : bool := c == ".".
Definition digit_or_dot (c : ascii) : bool := isdigit c || is_dot c.
Definition exponent_marker (c : ascii) : bool := (c == "e") || (c == "E").
Definition sign (c : ascii) : bool := (c == "+") || (c == "-").

(** The characters a numeric literal is made of. *)
Definition literal_char (c : ascii) : bool :=
  isdigit c || is_dot c || exponent_marker c || sign c.

(** Number of decimal points of a text. *)
Definition dots (m : text) : nat := length (filter is_dot m).

Definition first_is (p : ascii -> bool) (e : text) : bool :=
  match e with
  | c :: _ => p c
  | [] => false
  end.

(** The part of a literal before its exponent: digits with at most one
    decimal point, at which the dispatch enters the numeric scanner. *)
Definition mantissa (m : text) : bool :=
  starts_number m && forallb digit_or_dot m && (dots m <=? 1).

(** A malformed numeric literal at the head of a text: a second decimal
    point, or an exponent marker without its digits. *)
Inductive malformed : text -> LexicalError -> Prop :=
| second_point m rest :
    mantissa m = true -> dots m = 1 ->
    malformed (m ++ "." :: rest) MultipleDecimalPoints
| exponent_at_end m x :
    mantissa m = true -> exponent_marker x = true ->
    malformed (m ++ [x]) IncompleteExponent
| sign_without_digit m x s rest :
    mantissa m = true -> exponent_marker x = true -> sign s = true ->
    first_is isdigit rest = false ->
    malformed (m ++ x :: s :: rest) ExponentWithoutDigit
| exponent_without_digit m x c rest :
    mantissa m = true -> exponent_marker x = true ->
    sign c = false -> isdigit c = false ->
    malformed (m ++ x :: c :: rest) ExponentWithoutDigit.

Definition nospace (c : ascii) : bool := negb (isspace c).

(** An optional sign: nothing, or one sign character. *)
Definition optional_sign (s : text) : Prop :=
  s = [] \/ exists c, s = [c] /\ sign c = true.

(** A maximal run of letters of a text, between what is before it and what
    is after it. *)
Definition maximal_run (before run after : text) : Prop :=
  run <> [] /\ forallb isalpha run = true
  /\ first_is isalpha (rev before) = false
  /\ first_is isalpha after = false.

(** What the scanners put in a token: a Number starts with a digit or a
    decimal point and is made of literal characters, an identifier is made
    of letters, and every other token is one character. *)
Definition token_shape (tok : token) : Prop :=
  match type tok with
  | tokenType.Number =>
      first_is digit_or_dot (value tok) = true
      /\ forallb literal_char (value tok) = true
  | tokenType.Function | tokenType.Constant | tokenType.Variable_ =>
      forallb isalpha (value tok) = true
  | tokenType.Invalid =>
      forallb isalpha (value tok) = true \/ length (value tok) = 1
  | tokenType.LeftParen | tokenType.RightParen | tokenType.Operator =>
      length (value tok) = 1
  end.

(** A flag of the scanner, counted. *)
Definition flag (b : bool) : nat := if b then 1 else 0.

(** ** Notions for the behaviour of [tokenize] as a whole *)

(** A character at which the numeric scanner stops in its loop (line 130). *)
Definition continues_number (c : ascii) : bool :=
  isdigit c || is_dot c || exponent_marker c.

(** A text that no scanner reads into: it is empty, or starts with a
    character that is neither a letter nor a character of a literal. *)
Definition stops (r : text) : bool :=
  negb (first_is (fun c => literal_char c || isalpha c) r).

(** Two texts that start with the same character. *)
Definition same_head (r r2 : text) : Prop :=
  exists c t t2, r = c :: t /\ r2 = c :: t2.

(** [r2] may stand for [r] behind what a pass has consumed. *)
Definition continues (r r2 : text) : Prop :=
  stops r2 = true \/ same_head r r2.

(** A well-formed numeric literal: a mantissa, then perhaps an exponent
    marker, an optional sign and at least one digit. *)
Definition literal (v : text) : Prop :=
  exists m,
    mantissa m = true
    /\ (v = m
        \/ exists x s ds,
             v = m ++ x :: s ++ ds /\ exponent_marker x = true
             /\ optional_sign s /\ ds <> [] /\ forallb isdigit ds = true).

(** The kind of a token agrees with its text. *)
Definition classified (tok : token) : Prop :=
  match type tok with
  | tokenType.Number => literal (value tok)
  | tokenType.Function =>
      In (value tok) functions /\ forallb isalpha (value tok) = true
  | tokenType.Constant =>
      In (value tok) (map fst constant) /\ ~ In (value tok) functions
  | tokenType.Variable_ =>
      In (value tok) variables /\ length (value tok) = 1
      /\ ~ In (value tok) functions
      /\ ~ In (value tok) (map fst constant)
  | tokenType.LeftParen => value tok = str "("
  | tokenType.RightParen => value tok = str ")"
  | tokenType.Operator =>
      exists c, value tok = [c] /\ In c (str "+-*/^%=")
  | tokenType.Invalid =>
      (value tok <> [] /\ forallb isalpha (value tok) = true
       /\ ~ In (value tok) functions
       /\ ~ In (value tok) (map fst constant)
       /\ ~ (In (value tok) variables /\ length (value tok) = 1))
      \/ (exists c, value tok = [c] /\ isspace c = false
                    /\ isdigit c = false /\ isalpha c = false
                    /\ ~ In c (str "()+-*/^%="))
  end.

(** A token that [tokenize] gives back from its own text: the pass that
    starts at the text, with anything after it that [stops], emits the token
    and consumes exactly the text. *)
Definition reproducible (tok : token) : Prop :=
  exists c mid,
    value tok = c :: mid
    /\ forall tokens r2,
         stops r2 = true ->
         body tokens c (mid ++ r2) = Ok (tokens ++ [tok], r2).

(** Texts joined with a separator between them. *)
Fixpoint join (sep : ascii) (l : list text) : text :=
  match l with
  | [] => []
  | [v] => v
  | v :: l' => v ++ sep :: join sep l'
  end.

(** Texts laid out in an expression: they follow one another in it, each
    in one piece, with nothing but white space before, between and after
    them. *)
Inductive laid_out : list text -> text -> Prop :=
| laid_out_end ws : forallb isspace ws = true -> laid_out [] ws
| laid_out_text ws v vs rest :
    forallb isspace ws = true -> laid_out vs rest ->
    laid_out (v :: vs) (ws ++ v ++ rest).

(** The tokens of a result, behind tokens that were emitted before. *)
Definition prepend (tokens : list token) (r : result (list token))
  : result (list token) :=
  toks <- r ;; Ok (tokens ++ toks).

(** * Characters *)

(** Chains the passes of the loop on a closed expression. *)
Ltac run_passes :=
  repeat first [ apply scans_here | eapply scans_pass; [reflexivity|] ].

Ltac by_cases_on_char c :=
  destruct c as [[] [] [] [] [] [] [] []]; vm_compute; intros;
  solve [congruence | reflexivity | tauto].

Lemma digit_nospace c : isdigit c = true -> nospace c = true.
Proof. by_cases_on_char c. Qed.

Lemma alpha_nospace c : isalpha c = true -> nospace c = true.
Proof. by_cases_on_char c. Qed.

Lemma dot_nospace c : is_dot c = true -> nospace c = true.
Proof. by_cases_on_char c. Qed.

Lemma marker_nospace c : exponent_marker c = true -> nospace c = true.
Proof. by_cases_on_char c. Qed.

Lemma sign_nospace c : sign c = true -> nospace c = true.
Proof. by_cases_on_char c. Qed.

Lemma digit_not_dot c : isdigit c = true -> is_dot c = false.
Proof. by_cases_on_char c. Qed.

Lemma digit_not_alpha c : isdigit c = true -> isalpha c = false.
Proof. by_cases_on_char c. Qed.

Lemma dot_not_alpha c : is_dot c = true -> isalpha c = false.
Proof. by_cases_on_char c. Qed.

Lemma marker_not_digit c : exponent_marker c = true -> isdigit c = false.
Proof. by_cases_on_char c. Qed.

Lemma marker_not_dot c : exponent_marker c = true -> is_dot c = false.
Proof. by_cases_on_char c. Qed.

Lemma marker_alpha c : exponent_marker c = true -> isalpha c = true.
Proof. by_cases_on_char c. Qed.

Lemma sign_not_digit c : sign c = true -> isdigit c = false.
Proof. by_cases_on_char c. Qed.

Lemma literal_char_nospace c : literal_char c = true -> nospace c = true.
Proof. by_cases_on_char c. Qed.

Lemma digit_literal_char c : isdigit c = true -> literal_char c = true.
Proof. by_cases_on_char c. Qed.

Lemma dot_literal_char c : is_dot c = true -> literal_char c = true.
Proof. by_cases_on_char c. Qed.

Lemma marker_literal_char c : exponent_marker c = true -> literal_char c = true.
Proof. by_cases_on_char c. Qed.

Lemma sign_literal_char c : sign c = true -> literal_char c = true.
Proof. by_cases_on_char c. Qed.

Lemma is_dot_eq c : is_dot c = true -> c = ".".
Proof. apply Ascii.eqb_eq. Qed.

Lemma filter_nospace m :
  forallb nospace m = true -> filter nospace m = m.
Proof.
  induction m as [|c m IH]; simpl; [reflexivity|].
  intros H. apply andb_true_iff in H as [Hc Hm].
  rewrite Hc, IH; auto.
Qed.

(** * What the sub-scanners consume *)

Lemma exponent_digits_run ds : forall current rest,
  forallb isdigit ds = true -> first_is isdigit rest = false ->
  exponent_digits current (ds ++ rest) = (current ++ ds, rest).
Proof.
  induction ds as [|d ds IH]; simpl; intros current rest Hds Hrest.
  - rewrite app_nil_r. destruct rest as [|c rest]; [reflexivity|].
    simpl in *. rewrite Hrest. reflexivity.
  - apply andb_true_iff in Hds as [Hd Hds].
    rewrite Hd, IH by assumption. rewrite <- app_assoc. reflexivity.
Qed.

Lemma exponent_digits_consumes e : forall current current' rest,
  exponent_digits current e = (current', rest) ->
  exists mid, e = mid ++ rest /\ current' = current ++ mid
              /\ forallb isdigit mid = true /\ first_is isdigit rest = false.
Proof.
  induction e as [|c e IH]; simpl; intros current current' rest H.
  - inversion H; subst. exists []. rewrite !app_nil_r. repeat split; auto.
  - destruct (isdigit c) eqn:Hc.
    + apply IH in H as (mid & -> & -> & Hmid & Hrest).
      exists (c :: mid). simpl. rewrite Hc, <- app_assoc. repeat split; auto.
    + inversion H; subst. exists []. simpl. rewrite !app_nil_r, Hc. repeat split; auto.
Qed.

Lemma letters_run run : forall current rest,
  forallb isalpha run = true -> first_is isalpha rest = false ->
  letters current (run ++ rest) = (current ++ run, rest).
Proof.
  induction run as [|d run IH]; simpl; intros current rest Hrun Hrest.
  - rewrite app_nil_r. destruct rest as [|c rest]; [reflexivity|].
    simpl in *. rewrite Hrest. reflexivity.
  - apply andb_true_iff in Hrun as [Hd Hrun].
    rewrite Hd, IH by assumption. rewrite <- app_assoc. reflexivity.
Qed.

Lemma letters_consumes e : forall current current' rest,
  letters current e = (current', rest) ->
  exists mid, e = mid ++ rest /\ current' = current ++ mid
              /\ forallb isalpha mid = true /\ first_is isalpha rest = false.
Proof.
  induction e as [|c e IH]; simpl; intros current current' rest H.
  - inversion H; subst. exists []. rewrite !app_nil_r. repeat split; auto.
  - destruct (isalpha c) eqn:Hc.
    + apply IH in H as (mid & -> & -> & Hmid & Hrest).
      exists (c :: mid). simpl. rewrite Hc, <- app_assoc. repeat split; auto.
    + inversion H; subst. exists []. simpl. rewrite !app_nil_r, Hc. repeat split; auto.
Qed.

Lemma forallb_impl {A} (p q : A -> bool) l :
  (forall a, p a = true -> q a = true) ->
  forallb p l = true -> forallb q l = true.
Proof.
  intros Hpq. rewrite !forallb_forall. repeat split; auto.
Qed.

Lemma exponent_consumes e current current' rest :
  exponent current e = Ok (current', rest) ->
  exists mid, e = mid ++ rest /\ current' = current ++ mid
              /\ forallb literal_char mid = true.
Proof.
  unfold exponent. destruct e as [|s e]; [discriminate|].
  change ((s == "+") || (s == "-")) with (sign s).
  destruct (sign s) eqn:Hs.
  - destruct e as [|d e]; [discriminate|].
    destruct (isdigit d) eqn:Hd; [|discriminate].
    intros [= H'].
    apply (exponent_digits_consumes (d :: e)) in H'
      as (mid & Hmid & -> & Hall & _).
    exists (s :: mid). rewrite Hmid. simpl. rewrite <- app_assoc.
    repeat split; auto.
    rewrite (sign_literal_char s Hs). simpl.
    eapply forallb_impl; [apply digit_literal_char | exact Hall].
  - destruct (isdigit s) eqn:Hd; simpl; [|discriminate].
    intros [= H'].
    apply (exponent_digits_consumes (s :: e)) in H'
      as (mid & Hmid & -> & Hall & _).
    exists mid. repeat split; auto.
    eapply forallb_impl; [apply digit_literal_char | exact Hall].
Qed.

Lemma number_consumes e : forall seenDot seenExp current current' rest,
  number seenDot seenExp current e = Ok (current', rest) ->
  exists mid, e = mid ++ rest /\ current' = current ++ mid
              /\ forallb literal_char mid = true.
Proof.
  induction e as [|c e IH]; simpl; intros seenDot seenExp current current' rest H.
  - inversion H; subst. exists []. rewrite !app_nil_r. repeat split; auto.
  - change (c == ".") with (is_dot c) in H.
    change ((c == "e") || (c == "E")) with (exponent_marker c) in H.
    destruct (isdigit c) eqn:Hc.
    { apply IH in H as (mid & -> & -> & Hmid).
      exists (c :: mid). simpl.
      rewrite (digit_literal_char c Hc), <- app_assoc. repeat split; auto. }
    destruct (is_dot c) eqn:Hdot.
    { destruct (seenDot || seenExp); [discriminate|].
      apply IH in H as (mid & -> & -> & Hmid).
      exists (c :: mid). simpl.
      rewrite (dot_literal_char c Hdot), <- app_assoc. repeat split; auto. }
    destruct (exponent_marker c) eqn:He.
    { destruct seenExp; [discriminate|].
      apply exponent_consumes in H as (mid & -> & -> & Hmid).
      exists (c :: mid). simpl.
      rewrite (marker_literal_char c He), <- app_assoc. repeat split; auto. }
    inversion H; subst. exists []. rewrite !app_nil_r. repeat split; auto.
Qed.

(** * One pass of the loop *)

Lemma value_identifier current : value (identifier current) = current.
Proof.
  unfold identifier.
  destruct (count functions current); [reflexivity|].
  destruct (count_key constant current); [reflexivity|].
  destruct (count variables current && (length current =? 1)); reflexivity.
Qed.

Lemma starts_number_first e :
  starts_number e = true -> first_is digit_or_dot e = true.
Proof.
  destruct e as [|c e]; simpl; [discriminate|].
  unfold digit_or_dot, is_dot.
  destruct (isdigit c); [reflexivity|]. simpl.
  destruct (c == "."); [reflexivity|discriminate].
Qed.

(** A pass that returns has consumed a non-empty prefix [mid] of the unread
    text and appended tokens whose values are [mid] without its white
    space. *)
Lemma identifier_shape current :
  forallb isalpha current = true -> token_shape (identifier current).
Proof.
  intros H. unfold identifier, token_shape.
  destruct (count functions current); [exact H|].
  destruct (count_key constant current); [exact H|].
  destruct (count variables current && (length current =? 1));
    [exact H | left; exact H].
Qed.

Lemma body_consumes tokens c rest tokens' rest' :
  body tokens c rest = Ok (tokens', rest') ->
  exists new mid,
    c :: rest = mid ++ rest' /\ mid <> [] /\ tokens' = tokens ++ new
    /\ concat (map value new) = filter nospace mid
    /\ Forall token_shape new.
Proof.
  unfold body.
  destruct (isspace c) eqn:Hspace.
  { intros [= <- <-]. exists [], [c]. simpl. unfold nospace. rewrite Hspace.
    rewrite app_nil_r. repeat split; auto. discriminate. }
  assert (Hc : nospace c = true) by (unfold nospace; rewrite Hspace; reflexivity).
  destruct (starts_number (c :: rest)) eqn:Hnum.
  { destruct (numeric c rest) as [[current r]|err] eqn:Hn;
      simpl; [|discriminate].
    intros [= <- <-].
    apply number_consumes in Hn as (mid & -> & -> & Hmid).
    pose proof (starts_number_first _ Hnum) as Hfirst. simpl in Hfirst.
    assert (Hnospace : forallb nospace mid = true)
      by (eapply forallb_impl; [apply literal_char_nospace | exact Hmid]).
    exists [mkToken tokenType.Number ([c] ++ mid)], (c :: mid). simpl.
    rewrite Hc, (filter_nospace mid Hnospace), app_nil_r.
    repeat split; auto; [discriminate|].
    constructor; [|constructor]. split; simpl; [exact Hfirst|].
    rewrite Hmid, andb_true_r. revert Hfirst. clear. by_cases_on_char c. }
  destruct (isalpha c) eqn:Halpha.
  { destruct (letters [c] rest) as [current r] eqn:Hl.
    intros [= <- <-].
    apply letters_consumes in Hl as (mid & -> & -> & Hmid & _).
    exists [identifier ([c] ++ mid)], (c :: mid). simpl.
    rewrite Hc, value_identifier, app_nil_r, filter_nospace.
    - repeat split; auto; [discriminate|].
      constructor; [|constructor]. apply identifier_shape.
      simpl. now rewrite Halpha.
    - eapply forallb_impl; [apply alpha_nospace | exact Hmid]. }
  assert (Hone : forall ty,
             token_shape (mkToken ty [c]) ->
             exists new mid,
               c :: rest = mid ++ rest /\ mid <> []
               /\ tokens ++ [mkToken ty [c]] = tokens ++ new
               /\ concat (map value new) = filter nospace mid
               /\ Forall token_shape new).
  { intros ty Hty. exists [mkToken ty [c]], [c]. simpl. rewrite Hc.
    repeat split; auto; discriminate. }
  destruct (c == "(") eqn:Hl.
  { apply Ascii.eqb_eq in Hl; subst c. intros [= <- <-].
    apply Hone; reflexivity. }
  destruct (c == ")") eqn:Hr.
  { apply Ascii.eqb_eq in Hr; subst c. intros [= <- <-].
    apply Hone; reflexivity. }
  destruct (is_operator c); intros [= <- <-]; apply Hone;
    [reflexivity | right; reflexivity].
Qed.

Lemma body_shorter tokens c rest tokens' rest' :
  body tokens c rest = Ok (tokens', rest') -> length rest' <= length rest.
Proof.
  intros H. apply body_consumes in H as (new & mid & Hsplit & Hmid & _).
  apply (f_equal (@Datatypes.length ascii)) in Hsplit.
  rewrite length_app in Hsplit. simpl in Hsplit.
  destruct mid; [congruence|]. simpl in Hsplit. lia.
Qed.

(** * The loop does not depend on its bound *)

Lemma loop_bound n : forall m tokens e,
  length e <= n -> length e <= m -> loop n tokens e = loop m tokens e.
Proof.
  induction n as [|n IH]; intros m tokens e Hn Hm.
  - destruct e; [|simpl in Hn; lia]. destruct m; reflexivity.
  - destruct e as [|c rest]; [destruct m; reflexivity|].
    destruct m as [|m]; [simpl in Hm; lia|]. simpl in *.
    destruct (body tokens c rest) as [[tokens' rest']|err] eqn:Hb;
      simpl; [|reflexivity].
    apply body_shorter in Hb. apply IH; lia.
Qed.

Lemma tokenize_from_nil tokens : tokenize_from tokens [] = Ok tokens.
Proof. reflexivity. Qed.

Lemma tokenize_from_cons tokens c rest :
  tokenize_from tokens (c :: rest) =
  '(tokens', rest') <- body tokens c rest ;; tokenize_from tokens' rest'.
Proof.
  unfold tokenize_from. simpl.
  destruct (body tokens c rest) as [[tokens' rest']|err] eqn:Hb;
    simpl; [|reflexivity].
  apply body_shorter in Hb. apply loop_bound; lia.
Qed.

Lemma tokenize_is_tokenize_from expression :
  tokenize expression = tokenize_from [] expression.
Proof. reflexivity. Qed.

(** * Passes of the loop, chained *)

Lemma scans_trans t0 e0 t1 e1 t2 e2 :
  scans t0 e0 t1 e1 -> scans t1 e1 t2 e2 -> scans t0 e0 t2 e2.
Proof.
  induction 1 as [|? ? ? ? ? ? ? Hb _ IH]; intros H2; [exact H2|].
  eapply scans_pass; [exact Hb | apply IH, H2].
Qed.

Lemma scans_then_pass t0 e0 t1 c rest t2 e2 :
  scans t0 e0 t1 (c :: rest) -> body t1 c rest = Ok (t2, e2) ->
  scans t0 e0 t2 e2.
Proof.
  intros Hs Hb. eapply scans_trans; [exact Hs|].
  eapply scans_pass; [exact Hb | apply scans_here].
Qed.

Lemma scans_tokenize_from t0 e0 t1 e1 :
  scans t0 e0 t1 e1 -> tokenize_from t0 e0 = tokenize_from t1 e1.
Proof.
  induction 1 as [|? ? ? ? ? ? ? Hb _ IH]; [reflexivity|].
  rewrite tokenize_from_cons, Hb. exact IH.
Qed.

Lemma reaches_tokenize expression tokens rest :
  reaches expression tokens rest ->
  tokenize expression = tokenize_from tokens rest.
Proof. apply scans_tokenize_from. Qed.

(** The loop either runs to the end of the expression or stops in a pass
    that raises. *)
Lemma loop_outcome n : forall tokens e,
  length e <= n ->
  (exists toks, scans tokens e toks [] /\ tokenize_from tokens e = Ok toks)
  \/ (exists tokens' c rest err,
         scans tokens e tokens' (c :: rest)
         /\ body tokens' c rest = Err err
         /\ tokenize_from tokens e = Err err).
Proof.
  induction n as [|n IH]; intros tokens e Hn.
  - destruct e; [|simpl in Hn; lia].
    left. exists tokens. split; [apply scans_here | reflexivity].
  - destruct e as [|c rest].
    { left. exists tokens. split; [apply scans_here | reflexivity]. }
    rewrite tokenize_from_cons.
    destruct (body tokens c rest) as [[tokens1 rest1]|err] eqn:Hb.
    + pose proof (body_shorter _ _ _ _ _ Hb) as Hlen. simpl in Hn.
      destruct (IH tokens1 rest1 ltac:(lia))
        as [(toks & Hs & Ht)|(tokens' & c' & rest' & err & Hs & Hb' & Ht)].
      * left. exists toks. split; [eapply scans_pass; eauto | exact Ht].
      * right. exists tokens', c', rest', err.
        repeat split; [eapply scans_pass; eauto | exact Hb' | exact Ht].
    + right. exists tokens, c, rest, err.
      repeat split; [apply scans_here | exact Hb].
Qed.

Lemma tokenize_from_Ok tokens e toks :
  tokenize_from tokens e = Ok toks <-> scans tokens e toks [].
Proof.
  split.
  - intros H.
    destruct (loop_outcome (length e) tokens e (le_n _))
      as [(toks' & Hs & Ht)|(? & ? & ? & ? & _ & _ & Ht)];
      rewrite H in Ht; [|discriminate].
    injection Ht as ->. exact Hs.
  - intros H. rewrite (scans_tokenize_from _ _ _ _ H). reflexivity.
Qed.

Lemma tokenize_from_Err tokens e err :
  tokenize_from tokens e = Err err ->
  exists tokens' c rest,
    scans tokens e tokens' (c :: rest) /\ body tokens' c rest = Err err.
Proof.
  intros H.
  destruct (loop_outcome (length e) tokens e (le_n _))
    as [(toks' & _ & Ht)|(tokens' & c & rest & err' & Hs & Hb & Ht)];
    rewrite H in Ht; [discriminate|].
  injection Ht as ->. eauto.
Qed.

(** Only the numeric scanner makes a pass raise. *)
Lemma body_Err tokens c rest err :
  body tokens c rest = Err err ->
  starts_number (c :: rest) = true /\ numeric c rest = Err err.
Proof.
  unfold body.
  destruct (isspace c); [discriminate|].
  destruct (starts_number (c :: rest)).
  - destruct (numeric c rest) as [[current r]|err']; simpl; [discriminate|].
    intros [= ->]. auto.
  - destruct (isalpha c).
    { destruct (letters [c] rest); discriminate. }
    destruct (c == "("); [discriminate|].
    destruct (c == ")"); [discriminate|].
    destruct (is_operator c); discriminate.
Qed.

(** What a chain of passes has consumed and emitted. *)
Lemma scans_consumes t0 e0 t1 e1 :
  scans t0 e0 t1 e1 ->
  exists new mid,
    e0 = mid ++ e1 /\ t1 = t0 ++ new
    /\ concat (map value new) = filter nospace mid
    /\ Forall token_shape new.
Proof.
  induction 1 as [t e|t c rest t1 e1 t2 e2 Hb _ IH].
  - exists [], []. rewrite app_nil_r. repeat split; auto.
  - apply body_consumes in Hb as (new1 & mid1 & Hsplit & _ & -> & Hcat1 & Hsh1).
    destruct IH as (new2 & mid2 & -> & -> & Hcat2 & Hsh2).
    exists (new1 ++ new2), (mid1 ++ mid2).
    rewrite Hsplit, !app_assoc, map_app, concat_app, filter_app, Hcat1, Hcat2.
    repeat split; auto. apply Forall_app; auto.
Qed.

(** * The numeric scanner on a mantissa *)

Lemma dots_cons c m : dots (c :: m) = flag (is_dot c) + dots m.
Proof. unfold dots. simpl. destruct (is_dot c); reflexivity. Qed.

(** Digits and a first decimal point are appended, and the point is
    remembered. *)
Lemma number_mantissa m : forall seenDot current tail,
  forallb digit_or_dot m = true -> dots m + flag seenDot <= 1 ->
  number seenDot false current (m ++ tail) =
  number (seenDot || (0 <? dots m)) false (current ++ m) tail.
Proof.
  induction m as [|c m IH]; intros seenDot current tail Hall Hdots.
  - simpl. rewrite app_nil_r, orb_false_r. reflexivity.
  - simpl in Hall. apply andb_true_iff in Hall as [Hc Hall].
    rewrite dots_cons in *. simpl app at 1.
    change (c :: m ++ tail) with (c :: (m ++ tail)). simpl number.
    unfold digit_or_dot in Hc. change (c == ".") with (is_dot c).
    destruct (isdigit c) eqn:Hd.
    + rewrite (digit_not_dot c Hd) in *. simpl in *.
      rewrite IH by assumption. rewrite <- app_assoc. reflexivity.
    + simpl in Hc. rewrite Hc in *. simpl in Hdots.
      destruct seenDot; simpl in Hdots; [lia|]. simpl.
      rewrite IH by (simpl; auto; lia). rewrite <- app_assoc. reflexivity.
Qed.

Lemma starts_number_app m tail :
  starts_number m = true -> starts_number (m ++ tail) = true.
Proof.
  destruct m as [|c m]; simpl; [discriminate|].
  destruct (isdigit c); [reflexivity|]. simpl.
  destruct (c == "."); [|discriminate]. simpl.
  destruct m; simpl; [discriminate|auto].
Qed.

Lemma digit_or_dot_nospace c : digit_or_dot c = true -> nospace c = true.
Proof. by_cases_on_char c. Qed.

Lemma mantissa_inv m :
  mantissa m = true ->
  starts_number m = true /\ forallb digit_or_dot m = true /\ dots m <= 1.
Proof.
  unfold mantissa. intros H.
  apply andb_true_iff in H as [H H3]. apply andb_true_iff in H as [H1 H2].
  apply Nat.leb_le in H3. auto.
Qed.

(** The pass that starts at a mantissa [m] runs the numeric scanner up to
    the end of [m]. *)
Lemma body_mantissa tokens m tail :
  mantissa m = true ->
  exists c m',
    m = c :: m'
    /\ body tokens c (m' ++ tail) =
       ('(current, rest') <- number (0 <? dots m) false m tail ;;
        Ok (tokens ++ [mkToken tokenType.Number current], rest')).
Proof.
  intros H. apply mantissa_inv in H as (Hstart & Hall & Hdots).
  destruct m as [|c m']; [discriminate|]. exists c, m'. split; [reflexivity|].
  unfold body.
  change (c :: m' ++ tail) with ((c :: m') ++ tail).
  rewrite (starts_number_app _ tail Hstart).
  simpl in Hall. apply andb_true_iff in Hall as [Hc Hall].
  apply digit_or_dot_nospace in Hc. unfold nospace in Hc.
  destruct (isspace c); [discriminate|].
  unfold numeric. rewrite dots_cons in *.
  change (c == ".") with (is_dot c).
  rewrite number_mantissa by (auto; lia).
  destruct (is_dot c); reflexivity.
Qed.

Lemma number_second_point current rest :
  number true false current ("." :: rest) = Err MultipleDecimalPoints.
Proof. reflexivity. Qed.

Lemma number_marker seenDot current x tail :
  exponent_marker x = true ->
  number seenDot false current (x :: tail) = exponent (current ++ [x]) tail.
Proof.
  intros Hx. simpl.
  rewrite (marker_not_digit x Hx).
  change (x == ".") with (is_dot x). rewrite (marker_not_dot x Hx).
  change ((x == "e") || (x == "E")) with (exponent_marker x).
  rewrite Hx. reflexivity.
Qed.

(** * The exponent *)

Lemma exponent_Err current t err :
  exponent current t = Err err ->
  (t = [] /\ err = IncompleteExponent)
  \/ (exists s r, t = s :: r /\ sign s = true
                  /\ first_is isdigit r = false /\ err = ExponentWithoutDigit)
  \/ (exists c r, t = c :: r /\ sign c = false
                  /\ isdigit c = false /\ err = ExponentWithoutDigit).
Proof.
  unfold exponent. destruct t as [|s r].
  - intros [= <-]. auto.
  - change ((s == "+") || (s == "-")) with (sign s).
    destruct (sign s) eqn:Hs.
    + destruct r as [|d r].
      * intros [= <-]. right; left. exists s, []. auto.
      * destruct (isdigit d) eqn:Hd; [discriminate|].
        intros [= <-]. right; left. exists s, (d :: r). auto.
    + destruct (isdigit s) eqn:Hd; simpl; [discriminate|].
      intros [= <-]. right; right. exists s, r. auto.
Qed.

Lemma exponent_at_end_Err current :
  exponent current [] = Err IncompleteExponent.
Proof. reflexivity. Qed.

Lemma exponent_sign_Err current s r :
  sign s = true -> first_is isdigit r = false ->
  exponent current (s :: r) = Err ExponentWithoutDigit.
Proof.
  intros Hs Hr. unfold exponent.
  change ((s == "+") || (s == "-")) with (sign s). rewrite Hs.
  destruct r as [|d r]; [reflexivity|]. simpl in Hr. rewrite Hr. reflexivity.
Qed.

Lemma exponent_other_Err current c r :
  sign c = false -> isdigit c = false ->
  exponent current (c :: r) = Err ExponentWithoutDigit.
Proof.
  intros Hs Hd. unfold exponent.
  change ((c == "+") || (c == "-")) with (sign c). rewrite Hs, Hd.
  reflexivity.
Qed.

Lemma exponent_Ok current s ds rest :
  optional_sign s -> ds <> [] -> forallb isdigit ds = true ->
  first_is isdigit rest = false ->
  exponent current (s ++ ds ++ rest) = Ok (current ++ s ++ ds, rest).
Proof.
  intros Hs Hne Hds Hrest.
  destruct ds as [|d ds]; [congruence|].
  pose proof Hds as Hds'. simpl in Hds'.
  apply andb_true_iff in Hds' as [Hd _].
  destruct Hs as [->|(c & -> & Hc)].
  - simpl app. unfold exponent.
    change ((d == "+") || (d == "-")) with (sign d).
    destruct (sign d) eqn:Hsd.
    { apply sign_not_digit in Hsd. congruence. }
    rewrite Hd. simpl negb. cbv iota.
    change (d :: ds ++ rest) with ((d :: ds) ++ rest).
    rewrite exponent_digits_run by assumption. reflexivity.
  - simpl app. unfold exponent.
    change ((c == "+") || (c == "-")) with (sign c). rewrite Hc, Hd.
    change (d :: ds ++ rest) with ((d :: ds) ++ rest).
    rewrite exponent_digits_run by assumption.
    rewrite <- app_assoc. reflexivity.
Qed.

(** * Malformed literals are exactly what makes the scanner raise *)

Lemma exponent_Err_any current current' t err :
  exponent current t = Err err -> exponent current' t = Err err.
Proof.
  intros H.
  apply exponent_Err in H
    as [[-> ->]|[(s & r & -> & Hs & Hr & ->)|(c & r & -> & Hs & Hd & ->)]].
  - reflexivity.
  - now apply exponent_sign_Err.
  - now apply exponent_other_Err.
Qed.

Lemma number_Err e : forall seenDot current err,
  number seenDot false current e = Err err ->
  exists m tail,
    e = m ++ tail /\ forallb digit_or_dot m = true
    /\ dots m + flag seenDot <= 1
    /\ ((err = MultipleDecimalPoints /\ dots m + flag seenDot = 1
         /\ exists rest, tail = "." :: rest)
        \/ (exists x t, tail = x :: t /\ exponent_marker x = true
                        /\ exponent [] t = Err err)).
Proof.
  induction e as [|c e IH]; intros seenDot current err; simpl; [discriminate|].
  change (c == ".") with (is_dot c).
  change ((c == "e") || (c == "E")) with (exponent_marker c).
  destruct (isdigit c) eqn:Hd.
  { intros H. apply IH in H as (m & tail & -> & Hall & Hdots & Hcases).
    exists (c :: m), tail. rewrite dots_cons, (digit_not_dot c Hd).
    simpl. unfold digit_or_dot. rewrite Hd. simpl. auto. }
  destruct (is_dot c) eqn:Hdot.
  { rewrite orb_false_r. destruct seenDot.
    - intros [= <-]. exists [], (c :: e). simpl.
      repeat split; auto. left. repeat split; auto.
      exists e. now rewrite (is_dot_eq c Hdot).
    - intros H. apply IH in H as (m & tail & -> & Hall & Hdots & Hcases).
      exists (c :: m), tail. rewrite dots_cons, Hdot.
      simpl in *. unfold digit_or_dot. rewrite Hd, Hdot. simpl.
      repeat split; auto; [lia|].
      destruct Hcases as [(-> & Hone & Htail)|Hexp]; [left|right; exact Hexp].
      repeat split; auto. lia. }
  destruct (exponent_marker c) eqn:Hx; [|discriminate].
  intros H. exists [], (c :: e). simpl.
  repeat split; auto; [destruct seenDot; simpl; lia|].
  right. exists c, e. repeat split; auto.
  eapply exponent_Err_any, H.
Qed.

(** If the numeric scanner raises, the text at which it was entered is a
    malformed literal, with the matching kind of error. *)
Lemma numeric_Err c rest err :
  starts_number (c :: rest) = true -> numeric c rest = Err err ->
  malformed (c :: rest) err.
Proof.
  intros Hstart H. unfold numeric in H. change (c == ".") with (is_dot c) in H.
  apply number_Err in H as (m & tail & -> & Hall & Hdots & Hcases).
  assert (Hm : mantissa (c :: m) = true).
  { unfold mantissa. rewrite dots_cons.
    replace (flag (is_dot c) + dots m <=? 1) with true
      by (symmetry; apply Nat.leb_le; lia).
    assert (Hc : digit_or_dot c = true)
      by exact (starts_number_first _ Hstart).
    simpl forallb. rewrite Hall, Hc, !andb_true_r.
    simpl in *. destruct (isdigit c); [reflexivity|]. simpl in *.
    destruct (c == "."); [|discriminate]. simpl in *.
    destruct m as [|d m]; [|exact Hstart]. simpl in Hstart.
    destruct Hcases as [(_ & _ & r & ->)|(x & t & -> & Hx & _)].
    - discriminate.
    - apply marker_not_digit in Hx. congruence. }
  change (c :: m ++ tail) with ((c :: m) ++ tail).
  destruct Hcases as [(-> & Hone & r & ->)|(x & t & -> & Hx & Hexp)].
  - apply second_point; [exact Hm|]. rewrite dots_cons. lia.
  - apply exponent_Err in Hexp
      as [[-> ->]|[(s & r & -> & Hs & Hr & ->)|(d & r & -> & Hs & Hd & ->)]].
    + now apply exponent_at_end.
    + now apply sign_without_digit.
    + now apply exponent_without_digit.
Qed.

(** Conversely the pass that starts at a malformed literal raises. *)
Lemma body_second_point tokens m rest :
  mantissa m = true -> dots m = 1 ->
  exists c m', m = c :: m'
    /\ body tokens c (m' ++ "." :: rest) = Err MultipleDecimalPoints.
Proof.
  intros Hm Hone.
  destruct (body_mantissa tokens m ("." :: rest) Hm) as (c & m' & -> & Hb).
  exists c, m'. split; [reflexivity|].
  rewrite Hb, Hone. reflexivity.
Qed.

Lemma body_marker tokens m x tail :
  mantissa m = true -> exponent_marker x = true ->
  exists c m', m = c :: m'
    /\ body tokens c (m' ++ x :: tail) =
       ('(current, rest') <- exponent (m ++ [x]) tail ;;
        Ok (tokens ++ [mkToken tokenType.Number current], rest')).
Proof.
  intros Hm Hx.
  destruct (body_mantissa tokens m (x :: tail) Hm) as (c & m' & -> & Hb).
  exists c, m'. split; [reflexivity|].
  rewrite Hb, number_marker by assumption. reflexivity.
Qed.

Lemma malformed_body tokens literal err :
  malformed literal err ->
  exists c rest, literal = c :: rest /\ body tokens c rest = Err err.
Proof.
  intros H. destruct H as [m rest Hm Hone|m x Hm Hx|m x s rest Hm Hx Hs Hr
                          |m x d rest Hm Hx Hs Hd].
  - destruct (body_second_point tokens m rest Hm Hone) as (c & m' & -> & Hb).
    exists c, (m' ++ "." :: rest). auto.
  - destruct (body_marker tokens m x [] Hm Hx) as (c & m' & -> & Hb).
    exists c, (m' ++ [x]). split; [reflexivity|]. rewrite Hb. reflexivity.
  - destruct (body_marker tokens m x (s :: rest) Hm Hx) as (c & m' & -> & Hb).
    exists c, (m' ++ x :: s :: rest). split; [reflexivity|].
    rewrite Hb, exponent_sign_Err by assumption. reflexivity.
  - destruct (body_marker tokens m x (d :: rest) Hm Hx) as (c & m' & -> & Hb).
    exists c, (m' ++ x :: d :: rest). split; [reflexivity|].
    rewrite Hb, exponent_other_Err by assumption. reflexivity.
Qed.

Lemma reaches_malformed expression tokens literal err :
  reaches expression tokens literal -> malformed literal err ->
  tokenize expression = Err err.
Proof.
  intros Hr Hm. rewrite (reaches_tokenize _ _ _ Hr).
  destruct (malformed_body tokens literal err Hm) as (c & rest & -> & Hb).
  rewrite tokenize_from_cons, Hb. reflexivity.
Qed.

Lemma malformed_starts_number literal err :
  malformed literal err -> starts_number literal = true.
Proof.
  intros H; destruct H as [m ? Hm ?|m ? Hm ?|m ? ? ? Hm ? ? ?|m ? ? ? Hm ? ? ?];
    apply mantissa_inv in Hm as (Hs & _); apply starts_number_app, Hs.
Qed.

(** * Passes at characters and identifiers *)

Lemma alpha_not_digit c : isalpha c = true -> isdigit c = false.
Proof. by_cases_on_char c. Qed.

Lemma alpha_not_dot c : isalpha c = true -> is_dot c = false.
Proof. by_cases_on_char c. Qed.

Lemma body_space tokens c rest :
  isspace c = true -> body tokens c rest = Ok (tokens, rest).
Proof. intros H. unfold body. rewrite H. reflexivity. Qed.

Lemma body_invalid tokens c rest :
  isspace c = false -> starts_number (c :: rest) = false ->
  isalpha c = false -> c <> "(" -> c <> ")" -> is_operator c = false ->
  body tokens c rest = Ok (tokens ++ [mkToken tokenType.Invalid [c]], rest).
Proof.
  intros Hs Hn Ha Hl Hr Ho. unfold body. rewrite Hs, Hn, Ha, Ho.
  apply Ascii.eqb_neq in Hl, Hr. rewrite Hl, Hr. reflexivity.
Qed.

Lemma body_letters tokens run rest :
  run <> [] -> forallb isalpha run = true -> first_is isalpha rest = false ->
  exists c run',
    run = c :: run'
    /\ body tokens c (run' ++ rest) = Ok (tokens ++ [identifier run], rest).
Proof.
  intros Hne Hrun Hrest. destruct run as [|c run']; [congruence|].
  exists c, run'. split; [reflexivity|].
  simpl in Hrun. apply andb_true_iff in Hrun as [Hc Hrun].
  unfold body, starts_number.
  pose proof (alpha_nospace c Hc) as Hs. unfold nospace in Hs.
  destruct (isspace c); [discriminate|].
  change (c == ".") with (is_dot c).
  rewrite (alpha_not_digit c Hc), (alpha_not_dot c Hc), Hc. simpl.
  rewrite letters_run by assumption. reflexivity.
Qed.

(** * The examples of the specification *)

Example tokenize_digits :
  tokenize (str "42") = Ok [mkToken tokenType.Number (str "42")].
Proof. reflexivity. Qed.

Example tokenize_scientific :
  tokenize (str "3.2e-5") = Ok [mkToken tokenType.Number (str "3.2e-5")].
Proof. reflexivity. Qed.

Example tokenize_call :
  tokenize (str "sin(x)")
  = Ok [mkToken tokenType.Function (str "sin");
        mkToken tokenType.LeftParen (str "(");
        mkToken tokenType.Variable_ (str "x");
        mkToken tokenType.RightParen (str ")")].
Proof. reflexivity. Qed.

Example tokenize_constant :
  tokenize (str "pi+2")
  = Ok [mkToken tokenType.Constant (str "pi");
        mkToken tokenType.Operator (str "+");
        mkToken tokenType.Number (str "2")].
Proof. reflexivity. Qed.

Example tokenize_letters_then_digits :
  tokenize (str "foo123")
  = Ok [mkToken tokenType.Invalid (str "foo");
        mkToken tokenType.Number (str "123")].
Proof. reflexivity. Qed.

Example tokenize_trailing_point :
  tokenize (str "12. .")
  = Ok [mkToken tokenType.Number (str "12.");
        mkToken tokenType.Invalid (str ".")].
Proof. reflexivity. Qed.

(** * The claims *)

(** C1. [tokenize] raises only at a malformed numeric literal: if it raises,
    the loop has arrived at a text that starts a numeric literal and is
    malformed (a second decimal point, or an exponent marker without its
    digits), and the error is that literal's.  A character or an identifier
    that nothing recognises does not raise: the pass appends an Invalid token
    with that text and the loop goes on with the rest.  A call that raises
    returns no token list, and a call that never arrives at a malformed
    literal returns its tokens, having scanned the whole expression. *)
Theorem tokenize_raises_only_on_malformed_number expression :
  (forall err, tokenize expression = Err err ->
     exists tokens literal,
       reaches expression tokens literal
       /\ starts_number literal = true /\ malformed literal err)
  /\ (forall tokens c rest,
        reaches expression tokens (c :: rest) ->
        isspace c = false -> starts_number (c :: rest) = false ->
        isalpha c = false -> c <> "(" -> c <> ")" -> is_operator c = false ->
        reaches expression (tokens ++ [mkToken tokenType.Invalid [c]]) rest)
  /\ (forall tokens run rest,
        reaches expression tokens (run ++ rest) ->
        run <> [] -> forallb isalpha run = true ->
        first_is isalpha rest = false ->
        count functions run = false -> count_key constant run = false ->
        count variables run && (length run =? 1) = false ->
        reaches expression (tokens ++ [mkToken tokenType.Invalid run]) rest)
  /\ (forall err toks,
        tokenize expression = Err err -> tokenize expression <> Ok toks)
  /\ ((forall tokens literal err,
         reaches expression tokens literal -> ~ malformed literal err) ->
      exists toks, tokenize expression = Ok toks
                   /\ reaches expression toks []).
Proof.
  repeat split.
  - intros err H. apply tokenize_from_Err in H as (tokens & c & rest & Hs & Hb).
    apply body_Err in Hb as [Hstart Hnum].
    exists tokens, (c :: rest). repeat split; auto.
    now apply numeric_Err.
  - intros tokens c rest Hreach Hs Hn Ha Hl Hr Ho.
    eapply scans_then_pass; [exact Hreach|]. now apply body_invalid.
  - intros tokens run rest Hreach Hne Hrun Hrest Hf Hc Hv.
    destruct (body_letters tokens run rest Hne Hrun Hrest)
      as (c & run' & -> & Hb).
    eapply (scans_then_pass _ _ tokens c (run' ++ rest)); [exact Hreach|].
    rewrite Hb.
    unfold identifier. rewrite Hf, Hc, Hv. reflexivity.
  - intros err toks H. rewrite H. discriminate.
  - intros Hnone.
    destruct (tokenize expression) as [toks|err] eqn:Ht.
    + exists toks. split; [reflexivity|]. now apply tokenize_from_Ok.
    + apply tokenize_from_Err in Ht as (tokens & c & rest & Hs & Hb).
      apply body_Err in Hb as [Hstart Hnum].
      elim (Hnone tokens (c :: rest) err Hs). now apply numeric_Err.
Qed.

Lemma tokenize_raises_only_on_malformed_number_witness :
  (exists tokens literal,
      reaches (str "x+1.2.3") tokens literal
      /\ starts_number literal = true
      /\ malformed literal MultipleDecimalPoints)
  /\ reaches (str "2#foo")
       [mkToken tokenType.Number (str "2");
        mkToken tokenType.Invalid (str "#");
        mkToken tokenType.Invalid (str "foo")] [].
Proof.
  split.
  - exact (proj1 (tokenize_raises_only_on_malformed_number (str "x+1.2.3"))
             MultipleDecimalPoints eq_refl).
  - pose proof (tokenize_raises_only_on_malformed_number (str "2#foo"))
      as (_ & Hchar & Hrun & _).
    apply (Hrun [mkToken tokenType.Number (str "2");
                 mkToken tokenType.Invalid (str "#")] (str "foo") []);
      try reflexivity; try discriminate.
    apply (Hchar [mkToken tokenType.Number (str "2")] "#"%char (str "foo"));
      try reflexivity; try discriminate.
    unfold reaches. run_passes.
Defined.

(** C2. When [tokenize] returns tokens, their texts, concatenated in scan
    order, are the expression with its white space removed: every other
    character is kept, once, and in place. *)
Theorem tokenize_round_trip expression toks :
  tokenize expression = Ok toks ->
  concat (map value toks) = filter (fun c => negb (isspace c)) expression.
Proof.
  intros H. apply tokenize_from_Ok in H.
  apply scans_consumes in H as (new & mid & -> & -> & Hcat & _).
  rewrite app_nil_r. exact Hcat.
Qed.

Lemma tokenize_round_trip_witness :
  concat (map value [mkToken tokenType.Function (str "sin");
                     mkToken tokenType.LeftParen (str "(");
                     mkToken tokenType.Variable_ (str "x");
                     mkToken tokenType.RightParen (str ")");
                     mkToken tokenType.Operator (str "+");
                     mkToken tokenType.Number (str "3.2e-5")])
  = filter (fun c => negb (isspace c)) (str " sin(x) +  3.2e-5 ").
Proof.
  apply (tokenize_round_trip (str " sin(x) +  3.2e-5 ")). reflexivity.
Defined.

Lemma count_In table key : count table key = true <-> In key table.
Proof.
  unfold count. destruct (in_dec text_eq_dec key table); split; intros H;
    auto; try discriminate; contradiction.
Qed.

Lemma count_not_In table key : count table key = false <-> ~ In key table.
Proof.
  unfold count. destruct (in_dec text_eq_dec key table); split; intros H;
    auto; try discriminate; contradiction.
Qed.

(** C3, as stated, fails on an exponent marker.  In "2e5" the letter "e" is
    a maximal run of letters and a key of the constant table, but the
    numeric scanner consumes it: the only token is the Number "2e5", and no
    token has the text "e". *)
Lemma exponent_marker_run_not_classified :
  maximal_run (str "2") (str "e") (str "5")
  /\ count functions (str "e") = false
  /\ count_key constant (str "e") = true
  /\ tokenize (str "2" ++ str "e" ++ str "5")
     = Ok [mkToken tokenType.Number (str "2e5")]
  /\ ~ (forall toks,
          tokenize (str "2" ++ str "e" ++ str "5") = Ok toks ->
          In (mkToken tokenType.Constant (str "e")) toks).
Proof.
  repeat split; try reflexivity; try discriminate.
  intros H. specialize (H _ eq_refl). simpl in H.
  destruct H as [H|[]]. discriminate.
Qed.

(** C3, amended.  Every maximal run of letters at which the loop arrives is
    classified in this order: a member of the function set is a Function
    token; else a key of the constant table is a Constant token; else a
    member of the variable set that is one character long is a Variable
    token; else the run is an Invalid token.  The token carries the run and
    the loop goes on after it.  So tokenize("xy") is one Invalid token with
    text "xy". *)
Theorem identifier_run_classified :
  (forall expression tokens run rest,
     reaches expression tokens (run ++ rest) ->
     run <> [] -> forallb isalpha run = true ->
     first_is isalpha rest = false ->
     exists kind,
       reaches expression (tokens ++ [mkToken kind run]) rest
       /\ (In run functions -> kind = tokenType.Function)
       /\ (~ In run functions -> In run (map fst constant) ->
           kind = tokenType.Constant)
       /\ (~ In run functions -> ~ In run (map fst constant) ->
           In run variables -> length run = 1 ->
           kind = tokenType.Variable_)
       /\ (~ In run functions -> ~ In run (map fst constant) ->
           ~ (In run variables /\ length run = 1) ->
           kind = tokenType.Invalid))
  /\ tokenize (str "xy") = Ok [mkToken tokenType.Invalid (str "xy")].
Proof.
  split; [|reflexivity].
  intros expression tokens run rest Hreach Hne Hrun Hrest.
  destruct (body_letters tokens run rest Hne Hrun Hrest)
    as (c & run' & -> & Hb).
  exists (type (identifier (c :: run'))). split.
  { eapply (scans_then_pass _ _ tokens c (run' ++ rest)); [exact Hreach|].
    rewrite Hb. do 3 f_equal.
    rewrite <- (value_identifier (c :: run')) at 3.
    destruct (identifier (c :: run')); reflexivity. }
  unfold identifier, count_key.
  destruct (count functions (c :: run')) eqn:Hf.
  { apply count_In in Hf. simpl. repeat split; intros; auto; contradiction. }
  apply count_not_In in Hf.
  destruct (count (map fst constant) (c :: run')) eqn:Hc.
  { apply count_In in Hc. simpl. repeat split; intros; auto; contradiction. }
  apply count_not_In in Hc.
  destruct (count variables (c :: run') && (length (c :: run') =? 1)) eqn:Hv.
  - apply andb_true_iff in Hv as [Hv Hl].
    apply count_In in Hv. apply Nat.eqb_eq in Hl.
    simpl type. repeat split; intros; auto; try contradiction.
    exfalso; auto.
  - simpl type. repeat split; intros; auto; try contradiction.
    apply andb_false_iff in Hv as [Hv|Hl].
    + apply count_not_In in Hv. contradiction.
    + apply Nat.eqb_neq in Hl. contradiction.
Qed.

Lemma identifier_run_classified_witness :
  exists kind,
    reaches (str "2*pi") ([mkToken tokenType.Number (str "2");
                           mkToken tokenType.Operator (str "*")]
                          ++ [mkToken kind (str "pi")]) []
    /\ (In (str "pi") functions -> kind = tokenType.Function)
    /\ (~ In (str "pi") functions -> In (str "pi") (map fst constant) ->
        kind = tokenType.Constant)
    /\ (~ In (str "pi") functions -> ~ In (str "pi") (map fst constant) ->
        In (str "pi") variables -> length (str "pi") = 1 ->
        kind = tokenType.Variable_)
    /\ (~ In (str "pi") functions -> ~ In (str "pi") (map fst constant) ->
        ~ (In (str "pi") variables /\ length (str "pi") = 1) ->
        kind = tokenType.Invalid).
Proof.
  apply (proj1 identifier_run_classified (str "2*pi")
           [mkToken tokenType.Number (str "2");
            mkToken tokenType.Operator (str "*")] (str "pi") []);
    try reflexivity; try discriminate.
  unfold reaches. run_passes.
Defined.




(** C5. When the loop arrives at a numeric literal whose exponent marker is
    the last character of the expression, or is followed by a sign that no
    digit follows, or by a character that is neither a sign nor a digit,
    [tokenize] raises.  tokenize("2e") raises. *)
Theorem exponent_without_digits_raises :
  (forall expression tokens m x tail,
     reaches expression tokens (m ++ x :: tail) ->
     mantissa m = true -> exponent_marker x = true ->
     (tail = [] -> tokenize expression = Err IncompleteExponent)
     /\ (forall s r, tail = s :: r -> sign s = true ->
                     first_is isdigit r = false ->
                     tokenize expression = Err ExponentWithoutDigit)
     /\ (forall c r, tail = c :: r -> sign c = false -> isdigit c = false ->
                     tokenize expression = Err ExponentWithoutDigit))
  /\ tokenize (str "2e") = Err IncompleteExponent.
Proof.
  split; [|reflexivity].
  intros expression tokens m x tail Hreach Hm Hx. repeat split.
  - intros ->. eapply reaches_malformed; [exact Hreach|].
    now apply exponent_at_end.
  - intros s r -> Hs Hr. eapply reaches_malformed; [exact Hreach|].
    now apply sign_without_digit.
  - intros c r -> Hs Hd. eapply reaches_malformed; [exact Hreach|].
    now apply exponent_without_digit.
Qed.

Lemma exponent_without_digits_raises_witness :
  tokenize (str "(1.5E") = Err IncompleteExponent
  /\ tokenize (str "(1.5E-)") = Err ExponentWithoutDigit
  /\ tokenize (str "(1.5Ex") = Err ExponentWithoutDigit.
Proof.
  destruct exponent_without_digits_raises as (H & _).
  assert (Hreach : forall tail,
             reaches (str "(1.5E" ++ tail)
               [mkToken tokenType.LeftParen (str "(")]
               (str "1.5" ++ "E"%char :: tail))
    by (intros tail; unfold reaches; run_passes).
  split; [|split].
  - destruct (H _ _ _ _ _ (Hreach []) eq_refl eq_refl) as (H1 & _).
    apply H1. reflexivity.
  - destruct (H _ _ _ _ _ (Hreach (str "-)")) eq_refl eq_refl) as (_ & H2 & _).
    apply (H2 "-"%char (str ")")); reflexivity.
  - destruct (H _ _ _ _ _ (Hreach (str "x")) eq_refl eq_refl) as (_ & _ & H3).
    apply (H3 "x"%char []); reflexivity.
Defined.

(** C6. Once the optional sign and the run of digits of an exponent are
    consumed, the literal is complete: the Number token is the mantissa, the
    marker, the sign and these digits, and the loop goes on at the very next
    character, whatever it is; a decimal point or a marker there starts a
    new token.  tokenize("2e5.3") is Number "2e5", Number ".3". *)
Theorem exponent_ends_literal :
  (forall expression tokens m x s ds rest,
     reaches expression tokens (m ++ x :: s ++ ds ++ rest) ->
     mantissa m = true -> exponent_marker x = true ->
     optional_sign s -> ds <> [] -> forallb isdigit ds = true ->
     first_is isdigit rest = false ->
     reaches expression
       (tokens ++ [mkToken tokenType.Number (m ++ x :: s ++ ds)]) rest)
  /\ tokenize (str "2e5.3")
     = Ok [mkToken tokenType.Number (str "2e5");
           mkToken tokenType.Number (str ".3")].
Proof.
  split; [|reflexivity].
  intros expression tokens m x s ds rest Hreach Hm Hx Hs Hne Hds Hrest.
  destruct (body_marker tokens m x (s ++ ds ++ rest) Hm Hx)
    as (c & m' & -> & Hb).
  eapply (scans_then_pass _ _ tokens c (m' ++ x :: s ++ ds ++ rest));
    [exact Hreach|].
  rewrite Hb, exponent_Ok by assumption. simpl.
  rewrite <- !app_assoc. reflexivity.
Qed.

Lemma exponent_ends_literal_witness :
  reaches (str "2e5.3")
    ([] ++ [mkToken tokenType.Number (str "2" ++ "e"%char :: [] ++ str "5")])
    (str ".3").
Proof.
  apply (proj1 exponent_ends_literal (str "2e5.3") [] (str "2") "e"%char
           [] (str "5") (str ".3")); try reflexivity.
  - apply scans_here.
  - left. reflexivity.
  - discriminate.
Defined.

(** C7. [tokenize] never raises the error of multiple exponents: the loop
    of the numeric scanner starts with [seenExp] unset, leaves at the first
    marker, and so never tests a marker with [seenExp] set.
    tokenize("2e3e4") is Number "2e3", Constant "e", Number "4". *)
Theorem multiple_exponents_unreachable :
  (forall expression, tokenize expression <> Err MultipleExponents)
  /\ (forall seenDot current expression,
        number seenDot false current expression <> Err MultipleExponents)
  /\ tokenize (str "2e3e4")
     = Ok [mkToken tokenType.Number (str "2e3");
           mkToken tokenType.Constant (str "e");
           mkToken tokenType.Number (str "4")].
Proof.
  repeat split.
  - intros expression H.
    apply tokenize_from_Err in H as (tokens & c & rest & _ & Hb).
    apply body_Err in Hb as [Hstart Hnum].
    apply numeric_Err in Hnum; [|exact Hstart]. inversion Hnum.
  - intros seenDot current expression H.
    apply number_Err in H
      as (m & tail & _ & _ & _ & [(H & _)|(x & t & _ & _ & H)]);
      [discriminate|].
    apply exponent_Err in H
      as [[_ H]|[(? & ? & _ & _ & _ & H)|(? & ? & _ & _ & _ & H)]];
      discriminate.
Qed.

(** C8. "log_base" is a member of the function table, yet tokenize("log_base")
    is three tokens, Function "log", Invalid "_", Invalid "base"; and on no
    expression does [tokenize] emit a token whose text is "log_base". *)
Theorem log_base_never_one_token :
  In (str "log_base") functions
  /\ tokenize (str "log_base")
     = Ok [mkToken tokenType.Function (str "log");
           mkToken tokenType.Invalid (str "_");
           mkToken tokenType.Invalid (str "base")]
  /\ (forall expression toks tok,
        tokenize expression = Ok toks -> In tok toks ->
        value tok <> str "log_base").
Proof.
  repeat split.
  - apply count_In. reflexivity.
  - intros expression toks tok H Hin Hvalue.
    apply tokenize_from_Ok in H.
    apply scans_consumes in H as (new & mid & _ & -> & _ & Hshape).
    rewrite Forall_forall in Hshape. apply Hshape in Hin.
    unfold token_shape in Hin. rewrite Hvalue in Hin.
    assert (Hliteral : forallb literal_char (str "log_base") = false)
      by reflexivity.
    assert (Halpha : forallb isalpha (str "log_base") = false)
      by reflexivity.
    assert (Hlength : length (str "log_base") = 8) by reflexivity.
    destruct (type tok);
      repeat match goal with
             | H : _ /\ _ |- _ => destruct H
             | H : _ \/ _ |- _ => destruct H
             end; congruence.
Qed.

Lemma log_base_never_one_token_witness :
  value (mkToken tokenType.Function (str "log")) <> str "log_base".
Proof.
  destruct log_base_never_one_token as (_ & _ & H).
  apply (H (str "log_base(2, x)")
           [mkToken tokenType.Function (str "log");
            mkToken tokenType.Invalid (str "_");
            mkToken tokenType.Invalid (str "base");
            mkToken tokenType.LeftParen (str "(");
            mkToken tokenType.Number (str "2");
            mkToken tokenType.Invalid (str ",");
            mkToken tokenType.Variable_ (str "x");
            mkToken tokenType.RightParen (str ")")]).
  - reflexivity.
  - left. reflexivity.
Defined.

Lemma tokenize_from_spaces e : forall tokens,
  forallb isspace e = true -> tokenize_from tokens e = Ok tokens.
Proof.
  induction e as [|c e IH]; intros tokens H; [reflexivity|].
  simpl in H. apply andb_true_iff in H as [Hc He].
  rewrite tokenize_from_cons, (body_space _ _ _ Hc). simpl. now apply IH.
Qed.

(** C9. On an expression made of white space only, the empty one included,
    [tokenize] returns no token.  White space never produces a token: a
    pass at a white space character leaves the token vector as it is, and no
    token of any result contains a white space character. *)
Theorem whitespace_produces_no_token :
  (forall expression,
     forallb isspace expression = true -> tokenize expression = Ok [])
  /\ (forall expression tokens c rest,
        reaches expression tokens (c :: rest) -> isspace c = true ->
        reaches expression tokens rest)
  /\ (forall expression toks tok c,
        tokenize expression = Ok toks -> In tok toks -> In c (value tok) ->
        isspace c = false).
Proof.
  split; [|split].
  - intros expression H. now apply tokenize_from_spaces.
  - intros expression tokens c rest Hreach Hc.
    eapply scans_then_pass; [exact Hreach|]. now apply body_space.
  - intros expression toks tok c H Htok Hc.
    apply tokenize_from_Ok in H.
    apply scans_consumes in H as (new & mid & _ & -> & Hcat & _).
    assert (Hin : In c (concat (map value new))).
    { apply in_concat. exists (value tok). split; [|exact Hc].
      apply in_map, Htok. }
    rewrite Hcat in Hin. apply filter_In in Hin as [_ Hin].
    unfold nospace in Hin. now destruct (isspace c).
Qed.

Lemma whitespace_produces_no_token_witness :
  tokenize [" "; "009"; "010"; "011"; "012"; "013"]%char = Ok []
  /\ reaches (str "x  y") [mkToken tokenType.Variable_ (str "x")] (str " y")
  /\ isspace "+" = false.
Proof.
  destruct whitespace_produces_no_token as (Hall & Hpass & Hin).
  split; [|split].
  - apply Hall. reflexivity.
  - apply (Hpass (str "x  y") _ " "%char); [|reflexivity].
    unfold reaches. run_passes.
  - apply (Hin (str "1 + 2")
             [mkToken tokenType.Number (str "1");
              mkToken tokenType.Operator (str "+");
              mkToken tokenType.Number (str "2")]
             (mkToken tokenType.Operator (str "+"))).
    + reflexivity.
    + right; left; reflexivity.
    + left; reflexivity.
Defined.

(** C10. Every Number token that [tokenize] returns has a text that starts
    with a digit or a decimal point: a sign before a number is never part
    of it.  tokenize("-5") is Operator "-", Number "5". *)
Theorem number_starts_with_digit_or_point :
  (forall expression toks tok,
     tokenize expression = Ok toks -> In tok toks ->
     type tok = tokenType.Number ->
     exists c v, value tok = c :: v /\ (isdigit c = true \/ c = "."%char))
  /\ tokenize (str "-5")
     = Ok [mkToken tokenType.Operator (str "-");
           mkToken tokenType.Number (str "5")].
Proof.
  split; [|reflexivity].
  intros expression toks tok H Hin Htype.
  apply tokenize_from_Ok in H.
  apply scans_consumes in H as (new & mid & _ & -> & _ & Hshape).
  rewrite Forall_forall in Hshape. apply Hshape in Hin.
  unfold token_shape in Hin. rewrite Htype in Hin. destruct Hin as [Hfirst _].
  destruct (value tok) as [|c v]; [discriminate|]. exists c, v.
  split; [reflexivity|]. simpl in Hfirst. unfold digit_or_dot in Hfirst.
  apply orb_true_iff in Hfirst as [Hd|Hd]; [left; exact Hd|].
  right. now apply is_dot_eq.
Qed.

Lemma number_starts_with_digit_or_point_witness :
  exists c v,
    value (mkToken tokenType.Number (str ".5e+3")) = c :: v
    /\ (isdigit c = true \/ c = "."%char).
Proof.
  apply (proj1 number_starts_with_digit_or_point (str "x-.5e+3")
           [mkToken tokenType.Variable_ (str "x");
            mkToken tokenType.Operator (str "-");
            mkToken tokenType.Number (str ".5e+3")]).
  - reflexivity.
  - right; right; left; reflexivity.
  - reflexivity.
Defined.

(** * Further properties of [tokenize] *)

(** ** What a pass that returns has read *)

Lemma number_stop seenDot seenExp current r :
  first_is continues_number r = false ->
  number seenDot seenExp current r = Ok (current, r).
Proof.
  destruct r as [|c r]; [reflexivity|]. simpl. unfold continues_number.
  change (c == ".") with (is_dot c).
  change ((c == "e") || (c == "E")) with (exponent_marker c).
  destruct (isdigit c); [discriminate|].
  destruct (is_dot c); [discriminate|].
  destruct (exponent_marker c); [discriminate|reflexivity].
Qed.

Lemma exponent_Ok_shape current e current' r :
  exponent current e = Ok (current', r) ->
  exists s ds,
    e = s ++ ds ++ r /\ current' = current ++ s ++ ds
    /\ optional_sign s /\ ds <> [] /\ forallb isdigit ds = true
    /\ first_is isdigit r = false.
Proof.
  assert (Hrun : forall d e0 cur,
             isdigit d = true ->
             exponent_digits cur (d :: e0) = (current', r) ->
             exists ds, d :: e0 = ds ++ r /\ current' = cur ++ ds
                        /\ ds <> [] /\ forallb isdigit ds = true
                        /\ first_is isdigit r = false).
  { intros d e0 cur Hd H.
    apply exponent_digits_consumes in H as (ds & Hsplit & -> & Hds & Hr).
    exists ds. repeat split; auto. intros ->. simpl in Hsplit. subst r.
    simpl in Hr. congruence. }
  unfold exponent. destruct e as [|c e]; [discriminate|].
  change ((c == "+") || (c == "-")) with (sign c).
  destruct (sign c) eqn:Hs.
  - destruct e as [|d e]; [discriminate|].
    destruct (isdigit d) eqn:Hd; [|discriminate].
    intros [= H]. apply (Hrun d e _ Hd) in H as (ds & Hsplit & -> & Hne & Hds & Hr).
    exists [c], ds. rewrite Hsplit, <- app_assoc.
    repeat split; auto. right. exists c. auto.
  - destruct (isdigit c) eqn:Hd; simpl; [|discriminate].
    intros [= H]. apply (Hrun c e _ Hd) in H as (ds & Hsplit & -> & Hne & Hds & Hr).
    exists [], ds. repeat split; auto. now left.
Qed.

Lemma number_Ok_shape e : forall seenDot current current' r,
  number seenDot false current e = Ok (current', r) ->
  exists m,
    forallb digit_or_dot m = true /\ dots m + flag seenDot <= 1
    /\ ((e = m ++ r /\ current' = current ++ m
         /\ first_is continues_number r = false)
        \/ (exists x s ds,
              e = m ++ x :: s ++ ds ++ r
              /\ current' = current ++ m ++ x :: s ++ ds
              /\ exponent_marker x = true /\ optional_sign s
              /\ ds <> [] /\ forallb isdigit ds = true
              /\ first_is isdigit r = false)).
Proof.
  induction e as [|c e IH]; intros seenDot current current' r; simpl.
  { intros [= <- <-]. exists []. simpl.
    split; [reflexivity|]. split; [destruct seenDot; simpl; lia|].
    left. rewrite app_nil_r. auto. }
  change (c == ".") with (is_dot c).
  change ((c == "e") || (c == "E")) with (exponent_marker c).
  destruct (isdigit c) eqn:Hd.
  { intros H. apply IH in H as (m & Hall & Hdots & Hcases).
    exists (c :: m). rewrite dots_cons, (digit_not_dot c Hd).
    simpl. unfold digit_or_dot at 1. rewrite Hd. simpl.
    split; [exact Hall|]. split; [exact Hdots|].
    destruct Hcases as [(-> & -> & Hr)|(x & s & ds & -> & -> & Hrest)].
    - left. rewrite <- app_assoc. auto.
    - right. exists x, s, ds. rewrite <- !app_assoc. auto. }
  destruct (is_dot c) eqn:Hdot.
  { rewrite orb_false_r. destruct seenDot; [discriminate|].
    intros H. apply IH in H as (m & Hall & Hdots & Hcases).
    exists (c :: m). rewrite dots_cons, Hdot.
    simpl in *. unfold digit_or_dot at 1. rewrite Hd, Hdot. simpl.
    split; [exact Hall|]. split; [lia|].
    destruct Hcases as [(-> & -> & Hr)|(x & s & ds & -> & -> & Hrest)].
    - left. rewrite <- app_assoc. auto.
    - right. exists x, s, ds. rewrite <- !app_assoc. auto. }
  destruct (exponent_marker c) eqn:Hx.
  { intros H.
    apply exponent_Ok_shape in H as (s & ds & -> & -> & Hs & Hne & Hds & Hr).
    exists []. simpl.
    split; [reflexivity|]. split; [destruct seenDot; simpl; lia|].
    right. exists c, s, ds. rewrite <- !app_assoc. simpl. repeat split; auto. }
  intros [= <- <-]. exists []. simpl.
  split; [reflexivity|]. split; [destruct seenDot; simpl; lia|].
  left. rewrite app_nil_r. repeat split; auto.
  unfold continues_number. now rewrite Hd, Hdot, Hx.
Qed.

Lemma mantissa_intro c m tail :
  starts_number (c :: m ++ tail) = true ->
  forallb digit_or_dot m = true -> dots m + flag (is_dot c) <= 1 ->
  first_is isdigit tail = false ->
  mantissa (c :: m) = true.
Proof.
  intros Hstart Hall Hdots Htail. unfold mantissa. rewrite dots_cons.
  replace (flag (is_dot c) + dots m <=? 1) with true
    by (symmetry; apply Nat.leb_le; lia).
  assert (Hc : digit_or_dot c = true)
    by exact (starts_number_first _ Hstart).
  simpl forallb. rewrite Hall, Hc, !andb_true_r.
  simpl in *. destruct (isdigit c); [reflexivity|]. simpl in *.
  destruct (c == "."); [|discriminate]. simpl in *.
  destruct m as [|d m]; [|exact Hstart]. simpl in Hstart.
  destruct tail; simpl in *; congruence.
Qed.

Lemma numeric_Ok_shape c rest current r :
  starts_number (c :: rest) = true ->
  numeric c rest = Ok (current, r) ->
  exists m,
    mantissa (c :: m) = true
    /\ ((rest = m ++ r /\ current = c :: m
         /\ first_is continues_number r = false)
        \/ (exists x s ds,
              rest = m ++ x :: s ++ ds ++ r
              /\ current = c :: m ++ x :: s ++ ds
              /\ exponent_marker x = true /\ optional_sign s
              /\ ds <> [] /\ forallb isdigit ds = true
              /\ first_is isdigit r = false)).
Proof.
  intros Hstart H. unfold numeric in H. change (c == ".") with (is_dot c) in H.
  apply number_Ok_shape in H as (m & Hall & Hdots & Hcases).
  exists m.
  destruct Hcases as [(-> & -> & Hr)|(x & s & ds & -> & -> & Hx & Hrest)].
  - split; [|left; auto].
    apply (mantissa_intro c m r Hstart Hall Hdots).
    destruct r as [|d r]; [reflexivity|]. simpl in *.
    unfold continues_number in Hr. now destruct (isdigit d).
  - split; [|right; exists x, s, ds; auto].
    apply (mantissa_intro c m _ Hstart Hall Hdots).
    simpl. now apply marker_not_digit.
Qed.

Lemma continues_first (p : ascii -> bool) r r2 :
  (forall c, p c = true -> literal_char c || isalpha c = true) ->
  first_is p r = false -> continues r r2 -> first_is p r2 = false.
Proof.
  intros Hp Hr [Hstop|(c & t & t2 & -> & ->)]; [|exact Hr].
  destruct r2 as [|c r2]; [reflexivity|]. simpl.
  unfold stops in Hstop. simpl in Hstop.
  destruct (p c) eqn:Hc; [|reflexivity].
  rewrite (Hp c Hc) in Hstop. discriminate.
Qed.

Lemma continues_digit r r2 :
  first_is isdigit r = false -> continues r r2 -> first_is isdigit r2 = false.
Proof.
  apply continues_first. intros c H.
  now rewrite (digit_literal_char c H).
Qed.

Lemma continues_number_char c :
  continues_number c = true -> literal_char c = true.
Proof. by_cases_on_char c. Qed.

Lemma continues_continues_number r r2 :
  first_is continues_number r = false -> continues r r2 ->
  first_is continues_number r2 = false.
Proof.
  apply continues_first. intros c H.
  now rewrite (continues_number_char c H).
Qed.

Lemma continues_alpha r r2 :
  first_is isalpha r = false -> continues r r2 -> first_is isalpha r2 = false.
Proof.
  apply continues_first. intros c H. rewrite H. apply orb_true_r.
Qed.

Lemma identifier_classified run :
  run <> [] -> forallb isalpha run = true -> classified (identifier run).
Proof.
  intros Hne Hrun. unfold identifier, classified, count_key.
  destruct (count functions run) eqn:Hf.
  { apply count_In in Hf. cbn [type value]. split; assumption. }
  apply count_not_In in Hf.
  destruct (count (map fst constant) run) eqn:Hc.
  { apply count_In in Hc. cbn [type value]. split; assumption. }
  apply count_not_In in Hc.
  destruct (count variables run && (length run =? 1)) eqn:Hv;
    cbn [type value].
  - apply andb_true_iff in Hv as [Hv Hl].
    apply count_In in Hv. apply Nat.eqb_eq in Hl.
    repeat split; assumption.
  - left. repeat split; try assumption. intros [Hv' Hl].
    apply andb_false_iff in Hv as [Hv|Hv].
    + apply count_not_In in Hv. contradiction.
    + apply Nat.eqb_neq in Hv. contradiction.
Qed.

Lemma starts_number_false c rest r2 :
  starts_number (c :: rest) = false -> continues rest r2 ->
  starts_number (c :: r2) = false.
Proof.
  simpl. intros H Hcont.
  destruct (isdigit c); [discriminate|]. simpl in *.
  destruct (c == "."); [|reflexivity]. simpl in *.
  exact (continues_digit rest r2 H Hcont).
Qed.

(** A pass that returns either skips a white space character, or emits one
    token: the token's text is what the pass consumed, its kind agrees with
    its text, and the pass is the same behind any continuation that starts
    as the rest did, or that [stops]. *)
Lemma body_emits tokens c rest tokens' rest' :
  body tokens c rest = Ok (tokens', rest') ->
  (isspace c = true /\ tokens' = tokens /\ rest' = rest)
  \/ exists tok mid,
       tokens' = tokens ++ [tok] /\ value tok = c :: mid
       /\ rest = mid ++ rest' /\ classified tok /\ isspace c = false
       /\ forall tokens2 r2,
            continues rest' r2 ->
            body tokens2 c (mid ++ r2) = Ok (tokens2 ++ [tok], r2).
Proof.
  intros H. destruct (isspace c) eqn:Hspace.
  { left. rewrite (body_space _ _ _ Hspace) in H. injection H as <- <-. auto. }
  right. unfold body in H. rewrite Hspace in H.
  destruct (starts_number (c :: rest)) eqn:Hnum.
  { destruct (numeric c rest) as [[current r]|err] eqn:Hn;
      simpl in H; [|discriminate].
    injection H as <- <-.
    apply (numeric_Ok_shape _ _ _ _ Hnum) in Hn as (m & Hm & Hcases).
    destruct Hcases as [(-> & -> & Hr)|(x & s & ds & -> & -> & Hx & Hs & Hne & Hds & Hr)].
    - exists (mkToken tokenType.Number (c :: m)), m.
      repeat split; auto.
      + exists (c :: m). auto.
      + intros tokens2 r2 Hcont.
        destruct (body_mantissa tokens2 (c :: m) r2 Hm)
          as (c0 & m0 & [= <- <-] & Hb).
        rewrite Hb, number_stop; [reflexivity|].
        exact (continues_continues_number _ _ Hr Hcont).
    - exists (mkToken tokenType.Number (c :: m ++ x :: s ++ ds)),
        (m ++ x :: s ++ ds).
      repeat split; auto.
      + rewrite <- app_assoc. simpl. now rewrite <- app_assoc.
      + exists (c :: m). split; [exact Hm|]. right. exists x, s, ds. auto.
      + intros tokens2 r2 Hcont.
        destruct (body_marker tokens2 (c :: m) x (s ++ ds ++ r2) Hm Hx)
          as (c0 & m0 & [= <- <-] & Hb).
        replace ((m ++ x :: s ++ ds) ++ r2) with (m ++ x :: s ++ ds ++ r2)
          by (rewrite <- !app_assoc; simpl; now rewrite <- app_assoc).
        rewrite Hb, exponent_Ok; auto.
        * simpl. rewrite <- !app_assoc. reflexivity.
        * exact (continues_digit _ _ Hr Hcont). }
  destruct (isalpha c) eqn:Halpha.
  { destruct (letters [c] rest) as [current r] eqn:Hl.
    injection H as <- <-.
    apply letters_consumes in Hl as (mid & -> & -> & Hmid & Hr).
    assert (Hrun : forallb isalpha (c :: mid) = true)
      by (simpl; now rewrite Halpha).
    exists (identifier (c :: mid)), mid.
    repeat split; auto.
    - apply value_identifier.
    - apply identifier_classified; [discriminate|exact Hrun].
    - intros tokens2 r2 Hcont.
      destruct (body_letters tokens2 (c :: mid) r2) as (c0 & m0 & [= <- <-] & Hb);
        auto; [discriminate|].
      exact (continues_alpha _ _ Hr Hcont). }
  assert (Hone : forall tok,
             value tok = [c] -> classified tok ->
             (forall tokens2 r2,
                 starts_number (c :: r2) = false ->
                 body tokens2 c r2 = Ok (tokens2 ++ [tok], r2)) ->
             exists tok0 mid,
               tokens ++ [tok] = tokens ++ [tok0] /\ value tok0 = c :: mid
               /\ rest = mid ++ rest /\ classified tok0 /\ false = false
               /\ forall tokens2 r2,
                    continues rest r2 ->
                    body tokens2 c (mid ++ r2) = Ok (tokens2 ++ [tok0], r2)).
  { intros tok Hv Hcl Hb. exists tok, []. repeat split; auto.
    intros tokens2 r2 Hcont. apply Hb.
    exact (starts_number_false _ _ _ Hnum Hcont). }
  assert (Hbody : forall tokens2 r2,
             starts_number (c :: r2) = false ->
             body tokens2 c r2 =
             if c == "(" then
               Ok (tokens2 ++ [mkToken tokenType.LeftParen (str "(")], r2)
             else if c == ")" then
               Ok (tokens2 ++ [mkToken tokenType.RightParen (str ")")], r2)
             else if is_operator c then
               Ok (tokens2 ++ [mkToken tokenType.Operator [c]], r2)
             else
               Ok (tokens2 ++ [mkToken tokenType.Invalid [c]], r2)).
  { intros tokens2 r2 Hn. unfold body. rewrite Hspace, Hn, Halpha.
    reflexivity. }
  destruct (c == "(") eqn:Hl.
  { injection H as <- <-. apply Hone.
    - apply Ascii.eqb_eq in Hl. now subst c.
    - reflexivity.
    - intros tokens2 r2 Hn. rewrite (Hbody _ _ Hn). reflexivity. }
  destruct (c == ")") eqn:Hr.
  { injection H as <- <-. apply Hone.
    - apply Ascii.eqb_eq in Hr. now subst c.
    - reflexivity.
    - intros tokens2 r2 Hn. rewrite (Hbody _ _ Hn). reflexivity. }
  destruct (is_operator c) eqn:Ho; injection H as <- <-; apply Hone;
    try reflexivity.
  - exists c. split; [reflexivity|].
    unfold is_operator in Ho.
    now destruct (in_dec ascii_dec c (str "+-*/^%=")).
  - intros tokens2 r2 Hn. rewrite (Hbody _ _ Hn). reflexivity.
  - right. exists c.
    assert (Hd : isdigit c = false).
    { simpl in Hnum. now destruct (isdigit c). }
    repeat split; auto.
    apply Ascii.eqb_neq in Hl, Hr.
    unfold is_operator in Ho.
    destruct (in_dec ascii_dec c (str "+-*/^%=")) as [|Hnot];
      [discriminate|].
    intros [Hin|[Hin|Hin]]; [congruence|congruence|contradiction].
  - intros tokens2 r2 Hn. rewrite (Hbody _ _ Hn). reflexivity.
Qed.

(** ** The token vector is only appended to *)

Lemma body_prefix tokens c rest :
  body tokens c rest =
  ('(new, r) <- body [] c rest ;; Ok (tokens ++ new, r)).
Proof.
  unfold body.
  destruct (isspace c); [simpl; now rewrite app_nil_r|].
  destruct (starts_number (c :: rest)).
  { destruct (numeric c rest) as [[current r]|err]; reflexivity. }
  destruct (isalpha c).
  { destruct (letters [c] rest); reflexivity. }
  destruct (c == "("); [reflexivity|].
  destruct (c == ")"); [reflexivity|].
  destruct (is_operator c); reflexivity.
Qed.

Lemma prepend_prepend t1 t2 r :
  prepend t1 (prepend t2 r) = prepend (t1 ++ t2) r.
Proof. destruct r; simpl; [now rewrite app_assoc|reflexivity]. Qed.

Lemma tokenize_from_prepend_bounded n : forall e tokens,
  length e <= n -> tokenize_from tokens e = prepend tokens (tokenize e).
Proof.
  induction n as [|n IH]; intros e tokens Hn.
  - destruct e; [|simpl in Hn; lia]. simpl. unfold tokenize_from. simpl.
    now rewrite app_nil_r.
  - destruct e as [|c rest].
    { unfold tokenize_from. simpl. now rewrite app_nil_r. }
    rewrite tokenize_is_tokenize_from, !tokenize_from_cons.
    rewrite (body_prefix tokens).
    destruct (body [] c rest) as [[new r]|err] eqn:Hb; [|reflexivity].
    pose proof (body_shorter _ _ _ _ _ Hb) as Hlen. simpl in Hn. simpl.
    rewrite (IH r (tokens ++ new)), (IH r new) by lia.
    now rewrite prepend_prepend.
Qed.

Lemma tokenize_from_prepend tokens e :
  tokenize_from tokens e = prepend tokens (tokenize e).
Proof. apply (tokenize_from_prepend_bounded (length e)), le_n. Qed.

(** ** Passes behind a longer or a shorter expression *)

Lemma scans_from_nil t t' e' : scans t [] t' e' -> t' = t /\ e' = [].
Proof. intros H. inversion H; subst. auto. Qed.

Lemma scans_extend t e t' e' :
  scans t e t' e' ->
  forall r2, (e' = [] -> stops r2 = true) ->
             scans t (e ++ r2) t' (e' ++ r2).
Proof.
  induction 1 as [t e|t c rest t1 rest1 t2 e2 Hb Hs IH]; intros r2 Hstop.
  - apply scans_here.
  - simpl. eapply scans_pass; [|exact (IH r2 Hstop)].
    apply body_emits in Hb
      as [(Hc & -> & ->)|(tok & mid & -> & _ & -> & _ & _ & Hreplay)].
    + now apply body_space.
    + rewrite <- app_assoc. apply Hreplay.
      destruct rest1 as [|c1 rest1].
      * left. apply Hstop. now apply scans_from_nil in Hs.
      * right. exists c1, rest1, (rest1 ++ r2). auto.
Qed.

Lemma scans_truncate t e t' e' :
  scans t e t' e' -> exists pre, e = pre ++ e' /\ scans t pre t' [].
Proof.
  induction 1 as [t e|t c rest t1 rest1 t2 e2 Hb Hs (pre1 & Hsplit & IH)].
  - exists []. split; [reflexivity|apply scans_here].
  - apply body_emits in Hb
      as [(Hc & -> & ->)|(tok & mid & -> & _ & -> & _ & _ & Hreplay)].
    + exists (c :: pre1). split; [simpl; now rewrite <- Hsplit|].
      eapply scans_pass; [now apply body_space|exact IH].
    + exists (c :: mid ++ pre1). split.
      { simpl. rewrite <- app_assoc. now rewrite <- Hsplit. }
      eapply scans_pass; [|exact IH]. apply Hreplay.
      destruct pre1 as [|c1 pre1]; [now left|].
      right. rewrite Hsplit. exists c1, (pre1 ++ e2), pre1. auto.
Qed.

(** Every token a chain of passes emits is reproducible and classified. *)
Lemma scans_emits t e t' e' :
  scans t e t' e' ->
  exists new,
    t' = t ++ new /\ Forall reproducible new /\ Forall classified new.
Proof.
  induction 1 as [t e|t c rest t1 rest1 t2 e2 Hb Hs (new & -> & Hrep & Hcl)].
  - exists []. rewrite app_nil_r. auto.
  - apply body_emits in Hb
      as [(Hc & -> & ->)|(tok & mid & -> & Hv & -> & Hclass & _ & Hreplay)].
    + exists new. auto.
    + exists (tok :: new). rewrite <- app_assoc. repeat split; auto.
      constructor; [|exact Hrep].
      exists c, mid. split; [exact Hv|].
      intros tokens r2 Hstop. apply Hreplay. now left.
Qed.

Lemma space_stops w r : isspace w = true -> stops (w :: r) = true.
Proof.
  unfold stops. simpl. revert w. intros w.
  destruct w as [[] [] [] [] [] [] [] []]; vm_compute; intros;
    solve [congruence | reflexivity].
Qed.

Lemma tokenize_from_join w toks : forall tokens,
  Forall reproducible toks -> isspace w = true ->
  tokenize_from tokens (join w (map value toks)) = Ok (tokens ++ toks).
Proof.
  induction toks as [|tok toks IH]; intros tokens Hall Hw.
  { simpl. unfold tokenize_from. simpl. now rewrite app_nil_r. }
  inversion Hall as [|? ? (c & mid & Hv & Hreplay) Hrest]; subst.
  destruct toks as [|tok2 toks].
  - simpl. rewrite Hv, <- (app_nil_r mid), tokenize_from_cons.
    rewrite Hreplay by reflexivity. reflexivity.
  - change (join w (map value (tok :: tok2 :: toks)))
      with (value tok ++ w :: join w (map value (tok2 :: toks))).
    rewrite Hv. simpl app. rewrite tokenize_from_cons.
    rewrite Hreplay by (now apply space_stops). simpl.
    rewrite tokenize_from_cons, (body_space _ _ _ Hw). simpl.
    rewrite IH by assumption. now rewrite <- app_assoc.
Qed.

(** ** Round trips and composition *)

(** X1. Tokenizing again the texts of the returned tokens, joined with a
    white space character, returns the same tokens. *)
Theorem tokenize_join_round_trip expression toks w :
  tokenize expression = Ok toks -> isspace w = true ->
  tokenize (join w (map value toks)) = Ok toks.
Proof.
  intros H Hw. apply tokenize_from_Ok in H.
  apply scans_emits in H as (new & -> & Hrep & _).
  rewrite tokenize_is_tokenize_from. now rewrite tokenize_from_join.
Qed.

Lemma tokenize_join_round_trip_witness :
  let toks := [mkToken tokenType.Number (str "2e5");
               mkToken tokenType.Number (str ".3");
               mkToken tokenType.Operator (str "*");
               mkToken tokenType.Function (str "sin");
               mkToken tokenType.LeftParen (str "(");
               mkToken tokenType.Variable_ (str "x");
               mkToken tokenType.RightParen (str ")");
               mkToken tokenType.Operator (str "-");
               mkToken tokenType.Invalid (str "#");
               mkToken tokenType.Invalid (str "foo")] in
  tokenize (join " " (map value toks)) = Ok toks.
Proof.
  intros toks.
  apply (tokenize_join_round_trip (str "2e5.3*sin(x)-#foo") toks " "%char);
    reflexivity.
Defined.

(** X2. Tokenization composes at a boundary.  If [tokenize] returns tokens
    for [a], and [b] is empty or starts with a character that is neither a
    letter nor a character of a numeric literal (a white space, a
    parenthesis, an operator other than a sign, any other symbol), then
    [tokenize (a ++ b)] is the tokens of [a] followed by the outcome of
    [tokenize b]: its tokens, or its error. *)
Theorem tokenize_app a b ta :
  tokenize a = Ok ta -> stops b = true ->
  tokenize (a ++ b) = prepend ta (tokenize b).
Proof.
  intros Ha Hb. apply tokenize_from_Ok in Ha.
  pose proof (scans_extend _ _ _ _ Ha b (fun _ => Hb)) as Hs.
  rewrite (reaches_tokenize _ _ _ Hs). apply tokenize_from_prepend.
Qed.

Lemma tokenize_app_witness :
  tokenize (str "2e5" ++ str "*.3")
  = Ok ([mkToken tokenType.Number (str "2e5")]
        ++ [mkToken tokenType.Operator (str "*");
            mkToken tokenType.Number (str ".3")])
  /\ tokenize (str "sin(x" ++ str ")/1.2.3") = Err MultipleDecimalPoints.
Proof.
  split.
  - apply (tokenize_app (str "2e5") (str "*.3")); reflexivity.
  - apply (tokenize_app (str "sin(x") (str ")/1.2.3")
             [mkToken tokenType.Function (str "sin");
              mkToken tokenType.LeftParen (str "(");
              mkToken tokenType.Variable_ (str "x")]); reflexivity.
Defined.

(** ** Invariants of the returned tokens *)

(** X4. In every returned list the kind of each token agrees with its text:
    a Number is a well-formed literal; a Function is a member of the
    function set made of letters; a Constant is a key of the constant table
    that is not a function; a Variable is a one-letter member of the
    variable set; the parentheses carry "(" and ")"; an Operator is one of
    the seven operator characters; an Invalid token is a run of letters
    that no table recognises, or one character that is not a white space, a
    digit, a letter, a parenthesis or an operator. *)
Theorem tokens_classified expression toks :
  tokenize expression = Ok toks -> Forall classified toks.
Proof.
  intros H. apply tokenize_from_Ok in H.
  now apply scans_emits in H as (new & -> & _ & Hcl).
Qed.

Lemma tokens_classified_witness :
  Forall classified
    [mkToken tokenType.Constant (str "pi");
     mkToken tokenType.Operator (str "^");
     mkToken tokenType.Number (str "2.");
     mkToken tokenType.Invalid (str ".");
     mkToken tokenType.Invalid (str "xy")].
Proof.
  apply (tokens_classified (str "pi^2. . xy")). reflexivity.
Defined.

Lemma length_concat_nonempty (l : list text) :
  Forall (fun v => v <> []) l -> length l <= length (concat l).
Proof.
  induction 1 as [|v l Hv _ IH]; simpl; [lia|].
  rewrite length_app. destruct v; [congruence|]. simpl. lia.
Qed.

(** X7. No returned token has an empty text, and there are at most as many
    tokens as characters of the expression that are not white space. *)
Theorem token_count_bounded expression toks :
  tokenize expression = Ok toks ->
  Forall (fun tok => value tok <> []) toks
  /\ length toks <= length (filter (fun c => negb (isspace c)) expression)
  /\ length toks <= length expression.
Proof.
  intros H. apply tokenize_from_Ok in H.
  pose proof (scans_emits _ _ _ _ H) as (new & -> & Hrep & _).
  apply scans_consumes in H as (new' & mid & -> & Hnew & Hcat & _).
  simpl in Hnew. subst new'. rewrite app_nil_r.
  assert (Hne : Forall (fun tok => value tok <> []) new).
  { eapply Forall_impl; [|exact Hrep].
    intros tok (c & m & Hv & _). rewrite Hv. discriminate. }
  assert (Hlen : length new <= length (filter nospace mid)).
  { rewrite <- Hcat, <- (length_map value new).
    apply length_concat_nonempty. now apply Forall_map. }
  repeat split; auto.
  etransitivity; [exact Hlen|apply filter_length_le].
Qed.

Lemma token_count_bounded_witness :
  Forall (fun tok => value tok <> [])
    [mkToken tokenType.Function (str "sin");
     mkToken tokenType.Number (str "12")]
  /\ 2 <= length (filter (fun c => negb (isspace c)) (str " sin 12 "))
  /\ 2 <= length (str " sin 12 ").
Proof.
  apply (token_count_bounded (str " sin 12 ")
           [mkToken tokenType.Function (str "sin");
            mkToken tokenType.Number (str "12")]).
  reflexivity.
Defined.

(** ** Literals *)

Lemma dots_digits ds : forallb isdigit ds = true -> dots ds = 0.
Proof.
  induction ds as [|d ds IH]; [reflexivity|]. simpl. intros H.
  apply andb_true_iff in H as [Hd Hds].
  rewrite dots_cons, (digit_not_dot d Hd), IH by assumption. reflexivity.
Qed.

Lemma digits_mantissa ds :
  ds <> [] -> forallb isdigit ds = true -> mantissa ds = true.
Proof.
  intros Hne Hds. unfold mantissa. rewrite (dots_digits ds Hds).
  rewrite (forallb_impl isdigit digit_or_dot ds)
    by (auto; intros c Hc; unfold digit_or_dot; now rewrite Hc).
  destruct ds as [|d ds]; [congruence|]. simpl in *.
  apply andb_true_iff in Hds as [Hd _]. now rewrite Hd.
Qed.

(** X6. An expression that is a well-formed numeric literal is one Number
    token whose text is the expression; so is every non-empty string of
    digits. *)
Theorem literal_is_one_number :
  (forall v, literal v ->
             tokenize v = Ok [mkToken tokenType.Number v])
  /\ (forall ds, ds <> [] -> forallb isdigit ds = true ->
                 tokenize ds = Ok [mkToken tokenType.Number ds]).
Proof.
  assert (Hlit : forall v, literal v ->
                           tokenize v = Ok [mkToken tokenType.Number v]).
  { intros v (m & Hm & [->|(x & s & ds & -> & Hx & Hs & Hne & Hds)]).
    - destruct (body_mantissa [] m [] Hm) as (c & m' & -> & Hb).
      rewrite app_nil_r in Hb.
      rewrite tokenize_is_tokenize_from, tokenize_from_cons, Hb.
      rewrite number_stop by reflexivity. reflexivity.
    - destruct (body_marker [] m x (s ++ ds ++ []) Hm Hx)
        as (c & m' & -> & Hb).
      rewrite app_nil_r in Hb.
      rewrite tokenize_is_tokenize_from. simpl app.
      rewrite tokenize_from_cons, Hb.
      rewrite <- (app_nil_r ds) at 1.
      rewrite exponent_Ok by auto. simpl.
      rewrite <- !app_assoc. reflexivity. }
  split; [exact Hlit|].
  intros ds Hne Hds. apply Hlit. exists ds.
  split; [now apply digits_mantissa|now left].
Qed.

Lemma literal_is_one_number_witness :
  tokenize (str "0.5E+10") = Ok [mkToken tokenType.Number (str "0.5E+10")]
  /\ tokenize (str "007") = Ok [mkToken tokenType.Number (str "007")].
Proof.
  destruct literal_is_one_number as (Hlit & Hdigits). split.
  - apply Hlit. exists (str "0.5"). split; [reflexivity|].
    right. exists "E"%char, (str "+"), (str "10").
    repeat split; try reflexivity; try discriminate.
    right. exists "+"%char. split; reflexivity.
  - apply Hdigits; [discriminate|reflexivity].
Defined.

(** ** Errors and what follows them *)

Lemma tokenize_Err_malformed a err :
  tokenize a = Err err ->
  exists tokens pre lit,
    a = pre ++ lit /\ reaches a tokens lit /\ malformed lit err.
Proof.
  intros H. apply tokenize_from_Err in H as (tokens & c & rest & Hs & Hb).
  apply body_Err in Hb as [Hstart Hnum].
  pose proof (scans_consumes _ _ _ _ Hs) as (new & pre & Hsplit & _).
  exists tokens, pre, (c :: rest). repeat split; auto.
  now apply numeric_Err.
Qed.

(** X8. A second decimal point is fatal whatever follows it: if [tokenize]
    raises the error of multiple decimal points on an expression, it raises
    it on every expression that starts with it. *)
Theorem second_decimal_point_is_fatal a b :
  tokenize a = Err MultipleDecimalPoints ->
  tokenize (a ++ b) = Err MultipleDecimalPoints.
Proof.
  intros H. apply tokenize_Err_malformed in H as (tokens & pre & lit & _ & Hs & Hm).
  inversion Hm as [m rest Hmant Hone Hlit| | |]; subst.
  assert (Hs' : reaches (a ++ b) tokens (m ++ "."%char :: rest ++ b)).
  { pose proof (scans_extend _ _ _ _ Hs b) as He.
    rewrite <- app_assoc in He. apply He.
    intros Hnil. now destruct m. }
  eapply reaches_malformed; [exact Hs'|]. now apply second_point.
Qed.

Lemma second_decimal_point_is_fatal_witness :
  tokenize (str "x+1.2." ++ str "5e3)") = Err MultipleDecimalPoints.
Proof.
  apply second_decimal_point_is_fatal. reflexivity.
Defined.

(** X9. The error of an incomplete exponent is raised only when the
    expression ends with an exponent marker, and digits appended to the
    expression cure it: they complete the literal, which becomes the last
    token. *)
Theorem incomplete_exponent_is_at_the_end a :
  tokenize a = Err IncompleteExponent ->
  exists pre x,
    a = pre ++ [x] /\ exponent_marker x = true
    /\ forall ds, ds <> [] -> forallb isdigit ds = true ->
                  exists tokens m,
                    tokenize (a ++ ds)
                    = Ok (tokens ++ [mkToken tokenType.Number (m ++ x :: ds)]).
Proof.
  intros H. apply tokenize_Err_malformed in H as (tokens & pre & lit & Ha & Hs & Hm).
  inversion Hm as [|m x Hmant Hx Hlit| |]; subst.
  exists (pre ++ m), x. rewrite <- app_assoc. repeat split; auto.
  intros ds Hne Hds. exists tokens, m.
  pose proof (scans_extend _ _ _ _ Hs ds) as He.
  rewrite <- !app_assoc in He. simpl in He.
  rewrite <- !app_assoc. simpl app.
  rewrite (reaches_tokenize _ _ _ (He ltac:(intros Hnil; now destruct m))).
  destruct (body_marker tokens m x ([] ++ ds ++ []) Hmant Hx)
    as (c & m' & -> & Hb).
  simpl in Hb. rewrite app_nil_r in Hb. simpl app.
  rewrite tokenize_from_cons, Hb.
  rewrite <- (app_nil_r ds) at 1.
  rewrite (exponent_Ok _ [] ds []) by (auto; now left). simpl.
  rewrite <- !app_assoc. reflexivity.
Qed.

Lemma incomplete_exponent_is_at_the_end_witness :
  exists pre x,
    str "3*1.5e" = pre ++ [x] /\ exponent_marker x = true
    /\ forall ds, ds <> [] -> forallb isdigit ds = true ->
                  exists tokens m,
                    tokenize (str "3*1.5e" ++ ds)
                    = Ok (tokens ++ [mkToken tokenType.Number (m ++ x :: ds)]).
Proof.
  apply incomplete_exponent_is_at_the_end. reflexivity.
Defined.

(** ** Splitting an expression where its tokens split *)

Lemma scans_split t e t' e' :
  scans t e t' e' ->
  forall n1 n2, t' = t ++ n1 ++ n2 ->
  exists e1, scans t e (t ++ n1) e1 /\ scans (t ++ n1) e1 t' e'.
Proof.
  induction 1 as [t e|t c rest t1 rest1 t2 e2 Hb Hs IH]; intros n1 n2 Ht.
  - rewrite <- (app_nil_r t) in Ht at 1. apply app_inv_head in Ht.
    symmetry in Ht. apply app_eq_nil in Ht as [-> ->].
    exists e. rewrite app_nil_r. split; apply scans_here.
  - pose proof Hb as Hb'.
    apply body_emits in Hb'
      as [(Hc & -> & ->)|(tok & mid & -> & _ & -> & _ & _ & _)].
    + destruct (IH n1 n2 Ht) as (e1 & H1 & H2).
      exists e1. split; [eapply scans_pass; eauto|exact H2].
    + pose proof (scans_emits _ _ _ _ Hs) as (new & Hnew & _).
      rewrite Hnew, <- app_assoc in Ht. apply app_inv_head in Ht.
      destruct n1 as [|tok' n1].
      * exists (c :: mid ++ rest1). rewrite app_nil_r.
        split; [apply scans_here|]. eapply scans_pass; eauto.
      * simpl in Ht. injection Ht as <- Hrest.
        destruct (IH n1 n2) as (e1 & H1 & H2).
        { rewrite Hnew, Hrest. reflexivity. }
        exists e1. rewrite <- app_assoc in H1, H2. simpl in H1, H2.
        split; [eapply scans_pass; eauto|exact H2].
Qed.

Lemma tokens_split_text expression t1 t2 :
  tokenize expression = Ok (t1 ++ t2) ->
  exists a b,
    expression = a ++ b /\ tokenize a = Ok t1 /\ tokenize b = Ok t2.
Proof.
  intros H. apply tokenize_from_Ok in H.
  destruct (scans_split _ _ _ _ H t1 t2 eq_refl) as (b & H1 & H2).
  simpl in H1, H2.
  apply scans_truncate in H1 as (a & -> & Ha).
  exists a, b. split; [reflexivity|].
  split; [now apply tokenize_from_Ok|].
  apply tokenize_from_Ok in H2. rewrite tokenize_from_prepend in H2.
  destruct (tokenize b) as [tb|err]; simpl in H2; [|discriminate].
  injection H2 as H2. apply app_inv_head in H2. now subst.
Qed.

(** X3. Where the returned tokens split, the expression splits: if
    [tokenize] returns [t1 ++ t2], the expression is some [a ++ b] with
    [tokenize a] returning [t1] and [tokenize b] returning [t2]. *)
Theorem tokenize_split expression t1 t2 :
  tokenize expression = Ok (t1 ++ t2) ->
  exists a b,
    expression = a ++ b /\ tokenize a = Ok t1 /\ tokenize b = Ok t2.
Proof. apply tokens_split_text. Qed.

Lemma tokenize_split_witness :
  exists a b,
    str "2e5.3+x" = a ++ b
    /\ tokenize a = Ok [mkToken tokenType.Number (str "2e5")]
    /\ tokenize b = Ok [mkToken tokenType.Number (str ".3");
                        mkToken tokenType.Operator (str "+");
                        mkToken tokenType.Variable_ (str "x")].
Proof.
  apply (tokenize_split (str "2e5.3+x")
           [mkToken tokenType.Number (str "2e5")]). reflexivity.
Defined.

(** ** White space *)

Lemma tokenize_from_leading_spaces ws : forall tokens e,
  forallb isspace ws = true ->
  tokenize_from tokens (ws ++ e) = tokenize_from tokens e.
Proof.
  induction ws as [|w ws IH]; intros tokens e H; [reflexivity|].
  simpl in H. apply andb_true_iff in H as [Hw Hws]. simpl app.
  rewrite tokenize_from_cons, (body_space _ _ _ Hw). simpl. now apply IH.
Qed.

Lemma spaces_stop ws e :
  ws <> [] -> forallb isspace ws = true -> stops (ws ++ e) = true.
Proof.
  destruct ws as [|w ws]; [congruence|]. simpl. intros _ H.
  apply andb_true_iff in H as [Hw _]. now apply space_stops.
Qed.

Lemma tokenize_spaces_between ws a b ta tb :
  ws <> [] -> forallb isspace ws = true ->
  tokenize a = Ok ta -> tokenize b = Ok tb ->
  tokenize (a ++ ws ++ b) = Ok (ta ++ tb).
Proof.
  intros Hne Hws Ha Hb. apply tokenize_from_Ok in Ha.
  pose proof (scans_extend _ _ _ _ Ha (ws ++ b)
                (fun _ => spaces_stop ws b Hne Hws)) as Hs.
  rewrite (reaches_tokenize _ _ _ Hs). simpl app.
  rewrite tokenize_from_leading_spaces by assumption.
  rewrite tokenize_from_prepend, Hb. reflexivity.
Qed.

(** X11. White space changes no token where it cannot cut one: before an
    expression it changes nothing at all, error included; after an
    expression that returns tokens, and between any two of its tokens, it
    leaves the tokens as they are. *)
Theorem whitespace_between_tokens :
  (forall ws expression,
     forallb isspace ws = true ->
     tokenize (ws ++ expression) = tokenize expression)
  /\ (forall ws expression toks,
        forallb isspace ws = true -> tokenize expression = Ok toks ->
        tokenize (expression ++ ws) = Ok toks)
  /\ (forall ws expression t1 t2,
        forallb isspace ws = true ->
        tokenize expression = Ok (t1 ++ t2) ->
        exists a b,
          expression = a ++ b
          /\ tokenize a = Ok t1 /\ tokenize b = Ok t2
          /\ tokenize (a ++ ws ++ b) = Ok (t1 ++ t2)).
Proof.
  split; [|split].
  - intros ws expression Hws. now apply tokenize_from_leading_spaces.
  - intros ws expression toks Hws H.
    destruct ws as [|w ws]; [now rewrite app_nil_r|].
    rewrite <- (app_nil_r (w :: ws)), <- (app_nil_r toks).
    apply tokenize_spaces_between; auto. discriminate.
  - intros ws expression t1 t2 Hws H.
    destruct (tokens_split_text _ _ _ H) as (a & b & -> & Ha & Hb).
    exists a, b. repeat split; auto.
    destruct ws as [|w ws]; [exact H|].
    apply tokenize_spaces_between; auto. discriminate.
Qed.

Lemma whitespace_between_tokens_witness :
  tokenize (str "  " ++ str "2e") = tokenize (str "2e")
  /\ tokenize (str "x+1" ++ [" "; "010"]%char)
     = Ok [mkToken tokenType.Variable_ (str "x");
           mkToken tokenType.Operator (str "+");
           mkToken tokenType.Number (str "1")]
  /\ exists a b,
       str "x+1" = a ++ b
       /\ tokenize a = Ok [mkToken tokenType.Variable_ (str "x")]
       /\ tokenize b = Ok [mkToken tokenType.Operator (str "+");
                           mkToken tokenType.Number (str "1")]
       /\ tokenize (a ++ str "   " ++ b)
          = Ok ([mkToken tokenType.Variable_ (str "x")]
                ++ [mkToken tokenType.Operator (str "+");
                    mkToken tokenType.Number (str "1")]).
Proof.
  destruct whitespace_between_tokens as (Hbefore & Hafter & Hbetween).
  split; [|split].
  - apply Hbefore. reflexivity.
  - apply Hafter; reflexivity.
  - apply Hbetween; reflexivity.
Defined.

(** ** Parentheses and operators *)

Lemma literal_first v : literal v -> first_is digit_or_dot v = true.
Proof.
  intros (m & Hm & Hv). apply mantissa_inv in Hm as (Hs & _).
  apply starts_number_first in Hs.
  destruct m as [|c m]; [discriminate|].
  destruct Hv as [->|(x & s & ds & -> & _)]; exact Hs.
Qed.

Lemma special_character_kind tok c :
  classified tok -> value tok = [c] -> In c (str "()+-*/^%=") ->
  type tok = if c == "(" then tokenType.LeftParen
             else if c == ")" then tokenType.RightParen
             else tokenType.Operator.
Proof.
  intros Hcl Hv Hin. unfold classified in Hcl. rewrite Hv in Hcl.
  destruct (type tok).
  - apply literal_first in Hcl. simpl in Hcl, Hin.
    repeat destruct Hin as [<-|Hin]; try contradiction; discriminate.
  - destruct Hcl as (c' & [= <-] & Hop). simpl in Hop.
    repeat destruct Hop as [<-|Hop]; try contradiction; reflexivity.
  - injection Hcl as ->. reflexivity.
  - injection Hcl as ->. reflexivity.
  - destruct Hcl as [_ Hcl]. simpl in Hcl, Hin.
    repeat destruct Hin as [<-|Hin]; try contradiction; discriminate.
  - destruct Hcl as [Hcl _]. simpl in Hcl, Hin.
    destruct Hcl as [Hcl|[Hcl|[]]]; try discriminate.
    injection Hcl as <-.
    repeat destruct Hin as [Hin|Hin]; try contradiction; discriminate.
  - destruct Hcl as [Hcl _]. simpl in Hcl, Hin.
    destruct Hcl as [Hcl|[Hcl|[Hcl|[]]]]; injection Hcl as <-;
      repeat destruct Hin as [Hin|Hin]; try contradiction; discriminate.
  - destruct Hcl as [(_ & Hcl & _)|(c' & [= <-] & _ & _ & _ & Hnot)].
    + simpl in Hcl, Hin.
      repeat destruct Hin as [<-|Hin]; try contradiction; discriminate.
    + contradiction.
Qed.

(** X5. Parentheses and operators are recognised by their text alone: in
    every returned list a token is a LeftParen exactly when its text is
    "(", a RightParen exactly when its text is ")", and an Operator exactly
    when its text is one of the seven operator characters.  So "^", which
    is also in the function set, is always an Operator. *)
Theorem special_characters_kind expression toks tok :
  tokenize expression = Ok toks -> In tok toks ->
  (value tok = str "(" <-> type tok = tokenType.LeftParen)
  /\ (value tok = str ")" <-> type tok = tokenType.RightParen)
  /\ ((exists c, value tok = [c] /\ In c (str "+-*/^%="))
      <-> type tok = tokenType.Operator).
Proof.
  intros H Hin. apply tokenize_from_Ok in H.
  apply scans_emits in H as (new & -> & _ & Hcl).
  rewrite Forall_forall in Hcl. specialize (Hcl tok Hin).
  split; [|split]; split.
  - intros Hv.
    rewrite (special_character_kind tok "("%char Hcl Hv); [reflexivity|].
    left. reflexivity.
  - intros Ht. unfold classified in Hcl. now rewrite Ht in Hcl.
  - intros Hv.
    rewrite (special_character_kind tok ")"%char Hcl Hv); [reflexivity|].
    right; left. reflexivity.
  - intros Ht. unfold classified in Hcl. now rewrite Ht in Hcl.
  - intros (c & Hv & Hop).
    rewrite (special_character_kind tok c Hcl Hv); [|right; right; exact Hop].
    simpl in Hop.
    repeat destruct Hop as [<-|Hop]; try contradiction; reflexivity.
  - intros Ht. unfold classified in Hcl. now rewrite Ht in Hcl.
Qed.

Lemma special_characters_kind_witness :
  (value (mkToken tokenType.Operator (str "^")) = str "("
   <-> tokenType.Operator = tokenType.LeftParen)
  /\ (value (mkToken tokenType.Operator (str "^")) = str ")"
      <-> tokenType.Operator = tokenType.RightParen)
  /\ ((exists c, value (mkToken tokenType.Operator (str "^")) = [c]
                 /\ In c (str "+-*/^%="))
      <-> tokenType.Operator = tokenType.Operator).
Proof.
  apply (special_characters_kind (str "x^2")
           [mkToken tokenType.Variable_ (str "x");
            mkToken tokenType.Operator (str "^");
            mkToken tokenType.Number (str "2")]
           (mkToken tokenType.Operator (str "^"))).
  - reflexivity.
  - right; left; reflexivity.
Defined.

Lemma count_occ_forallb (q : ascii -> bool) v p :
  forallb q v = true -> q p = false ->
  count_occ ascii_dec v p = 0 /\ v <> [p].
Proof.
  intros Hv Hp. split.
  - apply count_occ_not_In. intros Hin.
    rewrite forallb_forall in Hv. apply Hv in Hin. congruence.
  - intros ->. simpl in Hv. rewrite Hp in Hv. discriminate.
Qed.

Lemma shape_count p tok :
  literal_char p || isalpha p = false -> token_shape tok ->
  count_occ ascii_dec (value tok) p
  = if text_eq_dec (value tok) [p] then 1 else 0.
Proof.
  intros Hp Hshape. apply orb_false_iff in Hp as [Hlit Halpha].
  assert (Hmany : forall q, forallb q (value tok) = true -> q p = false ->
                            count_occ ascii_dec (value tok) p
                            = if text_eq_dec (value tok) [p] then 1 else 0).
  { intros q Hv Hq.
    destruct (count_occ_forallb q _ p Hv Hq) as [-> Hne].
    now destruct (text_eq_dec (value tok) [p]). }
  assert (Hone : length (value tok) = 1 ->
                 count_occ ascii_dec (value tok) p
                 = if text_eq_dec (value tok) [p] then 1 else 0).
  { intros Hlen. destruct (value tok) as [|c [|? ?]]; try discriminate.
    simpl. destruct (ascii_dec c p) as [->|Hne].
    - now destruct (text_eq_dec [p] [p]).
    - destruct (text_eq_dec [c] [p]) as [[= ->]|]; [contradiction|reflexivity]. }
  unfold token_shape in Hshape.
  destruct (type tok); auto.
  - destruct Hshape as [_ Hv]. now apply (Hmany literal_char).
  - now apply (Hmany isalpha).
  - now apply (Hmany isalpha).
  - now apply (Hmany isalpha).
  - destruct Hshape as [Hv|Hlen]; [now apply (Hmany isalpha)|auto].
Qed.

Lemma texts_count p toks :
  literal_char p || isalpha p = false -> Forall token_shape toks ->
  count_occ text_eq_dec (map value toks) [p]
  = count_occ ascii_dec (concat (map value toks)) p.
Proof.
  intros Hp. induction 1 as [|tok toks Hshape _ IH]; [reflexivity|].
  simpl concat. rewrite count_occ_app, (shape_count p tok Hp Hshape), <- IH.
  simpl. now destruct (text_eq_dec (value tok) [p]).
Qed.

Lemma count_occ_nospace p e :
  isspace p = false ->
  count_occ ascii_dec (filter nospace e) p = count_occ ascii_dec e p.
Proof.
  intros Hp. induction e as [|c e IH]; [reflexivity|]. simpl.
  unfold nospace at 1. destruct (isspace c) eqn:Hc; simpl.
  - destruct (ascii_dec c p) as [->|]; [congruence|exact IH].
  - destruct (ascii_dec c p); now rewrite IH.
Qed.

(** X10. Characters that stand alone are never lost, merged or invented:
    for a character that is not a white space, a letter, a digit, ".", "e",
    "E", "+" or "-", the returned list has as many tokens with that
    one-character text as the expression has occurrences of the character.
    So there are as many tokens "(" as characters "(". *)
Theorem single_characters_counted expression toks p :
  tokenize expression = Ok toks ->
  literal_char p || isalpha p = false -> isspace p = false ->
  count_occ text_eq_dec (map value toks) [p]
  = count_occ ascii_dec expression p.
Proof.
  intros H Hp Hspace. apply tokenize_from_Ok in H.
  apply scans_consumes in H as (new & mid & -> & -> & Hcat & Hshape).
  simpl. rewrite app_nil_r, (texts_count p new Hp Hshape), Hcat.
  now apply count_occ_nospace.
Qed.

Lemma single_characters_counted_witness :
  count_occ text_eq_dec
    (map value [mkToken tokenType.LeftParen (str "(");
                mkToken tokenType.LeftParen (str "(");
                mkToken tokenType.Variable_ (str "x");
                mkToken tokenType.RightParen (str ")")]) (str "(")
  = count_occ ascii_dec (str "( (x)") "("%char.
Proof.
  apply (single_characters_counted (str "( (x)")); reflexivity.
Defined.

(** ** Where the tokens are in the expression *)

Lemma laid_out_space w vs e :
  isspace w = true -> laid_out vs e -> laid_out vs (w :: e).
Proof.
  intros Hw [ws Hws|ws v vs' rest Hws Hrest].
  - apply laid_out_end. simpl. now rewrite Hw.
  - apply (laid_out_text (w :: ws)); [simpl; now rewrite Hw|exact Hrest].
Qed.

Lemma scans_laid_out t e t' e' :
  scans t e t' e' -> e' = [] ->
  exists new, t' = t ++ new /\ laid_out (map value new) e.
Proof.
  induction 1 as [t e|t c rest t1 rest1 t2 e2 Hb Hs IH]; intros He.
  - subst e. exists []. rewrite app_nil_r. split; [reflexivity|].
    now apply laid_out_end.
  - destruct (IH He) as (new & -> & Hlaid).
    apply body_emits in Hb
      as [(Hc & -> & ->)|(tok & mid & -> & Hv & -> & _)].
    + exists new. split; [reflexivity|]. now apply laid_out_space.
    + exists (tok :: new). rewrite <- app_assoc. split; [reflexivity|].
      simpl map. rewrite Hv.
      apply (laid_out_text [] (c :: mid) _ rest1); [reflexivity|exact Hlaid].
Qed.

(** X13. The texts of the returned tokens are laid out in the expression:
    each is one piece of it, they come in the order of the tokens, and only
    white space lies before, between and after them. *)
Theorem tokens_laid_out expression toks :
  tokenize expression = Ok toks -> laid_out (map value toks) expression.
Proof.
  intros H. apply tokenize_from_Ok in H.
  now apply scans_laid_out in H as (new & -> & Hlaid).
Qed.

Lemma tokens_laid_out_witness :
  laid_out (map value [mkToken tokenType.Number (str "1");
                       mkToken tokenType.Number (str "2e3");
                       mkToken tokenType.Constant (str "e")])
    (str " 1  2e3e ").
Proof.
  apply tokens_laid_out. reflexivity.
Defined.

(** X12. The kind of a token is decided by its text: the text of a
    returned token, tokenized alone, gives back exactly that token; so two
    returned tokens with the same text, from whatever expressions, are
    equal. *)
Theorem token_decided_by_its_text :
  (forall expression toks tok,
     tokenize expression = Ok toks -> In tok toks ->
     tokenize (value tok) = Ok [tok])
  /\ (forall e1 e2 toks1 toks2 tok1 tok2,
        tokenize e1 = Ok toks1 -> tokenize e2 = Ok toks2 ->
        In tok1 toks1 -> In tok2 toks2 ->
        value tok1 = value tok2 -> tok1 = tok2).
Proof.
  assert (Halone : forall expression toks tok,
             tokenize expression = Ok toks -> In tok toks ->
             tokenize (value tok) = Ok [tok]).
  { intros expression toks tok H Hin. apply tokenize_from_Ok in H.
    apply scans_emits in H as (new & -> & Hrep & _).
    rewrite Forall_forall in Hrep.
    destruct (Hrep tok Hin) as (c & mid & Hv & Hreplay).
    rewrite Hv, <- (app_nil_r mid), tokenize_is_tokenize_from.
    rewrite tokenize_from_cons, Hreplay by reflexivity. reflexivity. }
  split; [exact Halone|].
  intros e1 e2 toks1 toks2 tok1 tok2 H1 H2 Hin1 Hin2 Hv.
  pose proof (Halone _ _ _ H1 Hin1) as Ht1.
  pose proof (Halone _ _ _ H2 Hin2) as Ht2.
  rewrite Hv, Ht2 in Ht1. now injection Ht1.
Qed.

Lemma token_decided_by_its_text_witness :
  tokenize (value (mkToken tokenType.Invalid (str "xy")))
  = Ok [mkToken tokenType.Invalid (str "xy")]
  /\ mkToken tokenType.Constant (str "e") = mkToken tokenType.Constant (str "e").
Proof.
  destruct token_decided_by_its_text as (Halone & Hsame). split.
  - apply (Halone (str "2*xy")
             [mkToken tokenType.Number (str "2");
              mkToken tokenType.Operator (str "*");
              mkToken tokenType.Invalid (str "xy")]).
    + reflexivity.
    + right; right; left; reflexivity.
  - apply (Hsame (str "e+1") (str "2e3e")
             [mkToken tokenType.Constant (str "e");
              mkToken tokenType.Operator (str "+");
              mkToken tokenType.Number (str "1")]
             [mkToken tokenType.Number (str "2e3");
              mkToken tokenType.Constant (str "e")]);
      try reflexivity.
    + left; reflexivity.
    + right; left; reflexivity.
Defined.
